(** * The bound-program model of the pcl binder

    A shallow embedding of [codegen/hcl2/pcl/program.go]: the [node] binding
    flags with their accessors, and the three package queries of [Program]
    ([PackageReferences], [Packages], [PackageSnapshots]).

    Go methods on a pointer receiver are embedded as computations of a
    state-and-outcome monad over the receiver: a call returns normally,
    returns a non-nil [error], or panics, and it leaves a (possibly updated)
    receiver behind. *)

From stdpp Require Import gmap strings list sorting fin_maps.

Set Default Proof Using "Type".

(** ** Go values shared by the whole development *)

(** A Go [error] value.  [errorString] is an opaque error (one made by
    [errors.New], or handed over by a collaborator); [wrapError] is the value
    built by [fmt.Errorf] with a [%w] verb: it carries the formatted message
    and the error it wraps. *)
Inductive error : Type :=
  | errorString (msg : string)
  | wrapError (msg : string) (err : error).

(** [err.Error()] *)
Definition Error (e : error) : string :=
  match e with
  | errorString msg => msg
  | wrapError msg _ => msg
  end.

(** [errors.Unwrap(err)] *)
Definition Unwrap (e : error) : option error :=
  match e with
  | errorString _ => None
  | wrapError _ err => Some err
  end.

(** [fmt.Errorf(prefix + "%w", err)] where [prefix] is the already formatted
    text that precedes the verb. *)
Definition Errorf_w (prefix : string) (err : error) : error :=
  wrapError (prefix +:+ Error err) err.

(** The panic value the Go runtime raises when a method is called on a nil
    interface value. *)
Definition nilDereference : error :=
  errorString "runtime error: invalid memory address or nil pointer dereference".

(** How a Go call ends: it returns its value ([Ok]), it returns a non-nil
    [error] beside the zero value ([Err]), or it panics ([Panic]). *)
Inductive outcome (A : Type) : Type :=
  | Ok (a : A)
  | Err (e : error)
  | Panic (e : error).
Arguments Ok {A} a.
Arguments Err {A} e.
Arguments Panic {A} e.

(** A method with receiver state [S] and result [A]. *)
Definition M (S A : Type) : Type := S -> outcome A * S.

Definition ret {S A} (a : A) : M S A := fun s => (Ok a, s).

Definition bind {S A B} (m : M S A) (f : A -> M S B) : M S B :=
  fun s =>
    match m s with
    | (Ok a, s') => f a s'
    | (Err e, s') => (Err e, s')
    | (Panic e, s') => (Panic e, s')
    end.

(** [return nil, err] *)
Definition fail {S A} (e : error) : M S A := fun s => (Err e, s).

(** [panic(err)] *)
Definition panic {S A} (e : error) : M S A := fun s => (Panic e, s).

(** Reading a field of the receiver. *)
Definition read {S A} (f : S -> A) : M S A := fun s => (Ok (f s), s).

(** Assigning to the receiver. *)
Definition modify {S} (f : S -> S) : M S unit := fun s => (Ok tt, f s).

Definition eval {S A} (m : M S A) (s : S) : outcome A := fst (m s).
Definition exec {S A} (m : M S A) (s : S) : S := snd (m s).

Declare Scope go_scope.
Delimit Scope go_scope with go.
Notation "'let*' x ':=' m 'in' k" := (bind m (fun x => k))
  (at level 10, x name, m at level 100, k at level 200,
   format "'[v' 'let*'  x  ':='  m  'in' '/' k ']'") : go_scope.
Open Scope go_scope.

(** ** [node]: the binding flags embedded in every program node *)

(** A value of interface type [Node]: the handle of the node it points to. *)
Definition Node : Type := nat.

(** [type node struct { binding bool; bound bool; deps []Node }] *)
Record node : Type := mkNode {
  binding : bool;
  bound : bool;
  deps : list Node
}.

(** The zero value of [node], which is what every freshly declared node
    embeds: both flags false and a nil [deps] slice. *)
Definition zeroNode : node := {| binding := false; bound := false; deps := [] |}.

Definition markBinding : M node unit :=
  modify (fun r => {| binding := true; bound := bound r; deps := deps r |}).

Definition markBound : M node unit :=
  modify (fun r => {| binding := binding r; bound := true; deps := deps r |}).

Definition isBinding : M node bool :=
  read (fun r => binding r && negb (bound r)).

Definition isBound : M node bool :=
  read (fun r => bound r).

Definition getDependencies : M node (list Node) :=
  read (fun r => deps r).

Definition setDependencies (nodes : list Node) : M node unit :=
  modify (fun r => {| binding := binding r; bound := bound r; deps := nodes |}).

(** The calls of the [Node] interface that write to the embedded [node]. *)
Inductive call : Type :=
  | MarkBinding
  | MarkBound
  | SetDependencies (nodes : list Node).

Definition invoke (c : call) : M node unit :=
  match c with
  | MarkBinding => markBinding
  | MarkBound => markBound
  | SetDependencies nodes => setDependencies nodes
  end.

(** A history of calls made on one node, oldest first. *)
Fixpoint invokeAll (cs : list call) : M node unit :=
  match cs with
  | [] => ret tt
  | c :: cs' => let* _ := invoke c in invokeAll cs'
  end.

(** The state a node created zero-valued is in after the history [cs]. *)
Definition after (cs : list call) : node := exec (invokeAll cs) zeroNode.

(** The argument of the latest [setDependencies] call of a history, and the
    nil slice when there is none. *)
Fixpoint lastDependencies (cs : list call) (acc : list Node) : list Node :=
  match cs with
  | [] => acc
  | SetDependencies nodes :: cs' => lastDependencies cs' nodes
  | _ :: cs' => lastDependencies cs' acc
  end.

(** ** The schema collaborator *)

(** Modelled from the spec: the [schema] package ([schema.Package],
    [schema.PackageReference], [schema.PartialPackage]) is imported by
    program.go and lives in another directory of the repository.  A package
    definition is kept as its name and the names of its members. *)
Record Package : Type := mkPackage {
  pkgName : string;
  pkgMembers : list string
}.

(** Modelled from the spec: a partial reference.  It can produce the full
    definition ([Definition()]) and a minimized snapshot ([Snapshot()]);
    either may fail with an error.  Both are functions of the members
    recorded so far, which the queries below do not change. *)
Record PartialPackage : Type := mkPartial {
  partialName : string;
  partialDefinition : error + Package;
  partialSnapshot : error + Package
}.

(** Modelled from the spec: the two variants of [schema.PackageReference].
    [Full] stands for every implementation other than [*PartialPackage]. *)
Inductive PackageReference : Type :=
  | Full (name : string) (definition : error + Package)
  | Partial (partial : PartialPackage).

(** [ref.Name()] *)
Definition Name (ref : PackageReference) : string :=
  match ref with
  | Full name _ => name
  | Partial partial => partialName partial
  end.

(** [ref.Definition()] *)
Definition Definition_of (ref : PackageReference) : error + Package :=
  match ref with
  | Full _ definition => definition
  | Partial partial => partialDefinition partial
  end.

(** [partial.Snapshot()] *)
Definition Snapshot (partial : PartialPackage) : error + Package :=
  partialSnapshot partial.

(** A Go pair [(value, err)] as the outcome of the call that returned it. *)
Definition returned {A} (r : error + A) : outcome A :=
  match r with
  | inl err => Err err
  | inr a => Ok a
  end.

(** A value of interface type [schema.PackageReference] is [None] when it is
    the nil interface; a method call on it then panics. *)
Definition callDefinition (ref : option PackageReference) : outcome Package :=
  match ref with
  | None => Panic nilDereference
  | Some r => returned (Definition_of r)
  end.

Definition callName (ref : option PackageReference) : outcome string :=
  match ref with
  | None => Panic nilDereference
  | Some r => Ok (Name r)
  end.

(** The outcome of a call made from inside a method. *)
Definition lift {S A} (o : outcome A) : M S A := fun s => (o, s).

(** ** [Program] and its package queries *)

(** [binder], as far as program.go reads it. *)
Record binder : Type := mkBinder {
  referencedPackages : gmap string PackageReference
}.

(** [type Program struct { Nodes []Node; files []*syntax.File; binder *binder }].
    [Nodes] holds the embedded [node] of each declaration in source order,
    [files] the names of the source files. *)
Record Program : Type := mkProgram {
  Nodes : list node;
  files : list string;
  binder_of : binder
}.

(** Go visits the keys of a map in an unspecified order: a [range] over a map
    yields each key once, in some order. *)
Class MapRange : Type := {
  rangeKeys : gmap string PackageReference -> list string;
  rangeKeys_perm : forall m, rangeKeys m ≡ₚ (map_to_list m).*1
}.

(** [sort.Strings]: ascending order of Go's [<] on strings, which compares
    byte by byte. *)
Definition sort_Strings (keys : list string) : list string :=
  merge_sort String.le keys.

(** [for k := range m { keys = append(keys, k) }], given the order in which
    the [range] yields the keys. *)
Definition appendKeys (keys order : list string) : list string :=
  foldl (fun keys k => keys ++ [k]) keys order.

Section queries.
Context {range : MapRange}.

(** The first half of [PackageReferences] and of [PackageSnapshots]:
    collect the keys of the table, then sort them. *)
Definition sortedKeys : M Program (list string) :=
  let* order := read (fun p => rangeKeys (referencedPackages (binder_of p))) in
  let keys := appendKeys [] order in
  ret (sort_Strings keys).

Fixpoint PackageReferences_loop (keys : list string)
    (values : list (option PackageReference))
    : M Program (list (option PackageReference)) :=
  match keys with
  | [] => ret values
  | k :: keys' =>
      let* ref := read (fun p => referencedPackages (binder_of p) !! k) in
      PackageReferences_loop keys' (values ++ [ref])
  end.

Definition PackageReferences : M Program (list (option PackageReference)) :=
  let* keys := sortedKeys in
  PackageReferences_loop keys [].

(** The loop of [Packages]; [defs] is the slice made with [len(refs)] nil
    entries and [i] the index of [ref]. *)
Fixpoint Packages_loop (i : nat) (refs : list (option PackageReference))
    (defs : list (option Package)) : M Program (list (option Package)) :=
  match refs with
  | [] => ret defs
  | ref :: refs' =>
      match callDefinition ref with
      | Ok def => Packages_loop (S i) refs' (<[i := Some def]> defs)
      | Err err => panic (Errorf_w "loading package definition: " err)
      | Panic e => panic e
      end
  end.

Definition Packages : M Program (list (option Package)) :=
  let* refs := PackageReferences in
  Packages_loop 0 refs (replicate (length refs) None).

(** The type switch of [PackageSnapshots]: a reference that is a
    [PartialPackage] is asked for its [Snapshot()], any other reference for
    its [Definition()]. *)
Definition materialize (ref : option PackageReference) : outcome Package :=
  match ref with
  | Some (Partial partial) => returned (Snapshot partial)
  | _ => callDefinition ref
  end.

Fixpoint PackageSnapshots_loop (keys : list string)
    (values : list (option Package)) : M Program (list (option Package)) :=
  match keys with
  | [] => ret values
  | k :: keys' =>
      let* ref := read (fun p => referencedPackages (binder_of p) !! k) in
      match materialize ref with
      | Ok pkg => PackageSnapshots_loop keys' (values ++ [Some pkg])
      | Err err =>
          let* name := lift (callName ref) in
          fail (Errorf_w ("defining package '" +:+ name +:+ "': ") err)
      | Panic e => panic e
      end
  end.

Definition PackageSnapshots : M Program (list (option Package)) :=
  let* keys := sortedKeys in
  PackageSnapshots_loop keys [].
End queries.

(** Two ways a [range] may run: in the order of the table's own listing, and
    in the reverse of it. *)
Definition listingRange : MapRange :=
  {| rangeKeys := fun m => (map_to_list m).*1;
     rangeKeys_perm := fun m => reflexivity _ |}.

Definition reverseRange : MapRange :=
  {| rangeKeys := fun m => reverse (map_to_list m).*1;
     rangeKeys_perm := fun m => reverse_Permutation _ |}.

(** ** Sample programs *)

Definition awsPackage : Package :=
  mkPackage "aws" ["aws:s3/bucket:Bucket"; "aws:s3/bucketObject:BucketObject"].

Definition randomPackage : Package :=
  mkPackage "random" ["random:index/randomPet:RandomPet"].

Definition kubernetesPackage : Package :=
  mkPackage "kubernetes"
    ["kubernetes:core/v1:Pod"; "kubernetes:core/v1:Service";
     "kubernetes:apps/v1:Deployment"].

Definition kubernetesSnapshot : Package :=
  mkPackage "kubernetes" ["kubernetes:core/v1:Pod"].

Definition notFound : error := errorString "schema not found".

(** A program that references a partial package and two full ones, all of
    which load. *)
Definition healthyProgram : Program :=
  {| Nodes := [ {| binding := true; bound := true; deps := [] |};
                {| binding := true; bound := true; deps := [0] |} ];
     files := ["main.pp"];
     binder_of := mkBinder (list_to_map
       [ ("random", Full "random" (inr randomPackage));
         ("kubernetes",
          Partial (mkPartial "kubernetes" (inr kubernetesPackage)
                     (inr kubernetesSnapshot)));
         ("aws", Full "aws" (inr awsPackage)) ]) |}.

(** A program one of whose references cannot be loaded: neither the
    definition nor the snapshot of ["kubernetes"] can be produced. *)
Definition brokenProgram : Program :=
  {| Nodes := [];
     files := ["main.pp"];
     binder_of := mkBinder (list_to_map
       [ ("random", Full "random" (inr randomPackage));
         ("kubernetes",
          Partial (mkPartial "kubernetes" (inl notFound) (inl notFound)));
         ("aws", Full "aws" (inr awsPackage)) ]) |}.

(** ** Notions the statements below are phrased with *)

(** A call is rejected when it does not return normally. *)
Definition rejected {A} (o : outcome A) : Prop :=
  match o with
  | Ok _ => False
  | Err _ | Panic _ => True
  end.

(** A method is read-only when it leaves every receiver as it found it. *)
Definition readonly {S A} (m : M S A) : Prop := forall s, exec m s = s.

(** The table of referenced packages of a program. *)
Definition tableOf (p : Program) : gmap string PackageReference :=
  referencedPackages (binder_of p).

(** The names under which a table holds a reference, in ascending order. *)
Definition tableKeys (m : gmap string PackageReference) : list string :=
  sort_Strings (map_to_list m).*1.

(** [l] lists one value per name of the table [m], by ascending name, the
    value listed for the name [k] with reference [ref] satisfying
    [P k ref]. *)
Definition listsByName {V} (m : gmap string PackageReference)
    (P : string -> PackageReference -> V -> Prop) (l : list V) : Prop :=
  Forall2 (fun k v => exists ref, m !! k = Some ref /\ P k ref v)
          (tableKeys m) l.

(** ** Notions for the further properties of [node] and [Program] *)

(** The program [p] with every stored reference replaced by its image
    under [g]. *)
Definition mapTable (g : PackageReference -> PackageReference) (p : Program)
    : Program :=
  {| Nodes := Nodes p;
     files := files p;
     binder_of := mkBinder (g <$> tableOf p) |}.

(** The reference [ref], except that, when it is partial, its
    [Definition()] ends as [f] says. *)
Definition withDefinition (f : PartialPackage -> error + Package)
    (ref : PackageReference) : PackageReference :=
  match ref with
  | Full name definition => Full name definition
  | Partial partial =>
      Partial (mkPartial (partialName partial) (f partial)
                 (partialSnapshot partial))
  end.

(** The reference [ref], except that, when it is partial, its [Snapshot()]
    ends as [f] says. *)
Definition withSnapshot (f : PartialPackage -> error + Package)
    (ref : PackageReference) : PackageReference :=
  match ref with
  | Full name definition => Full name definition
  | Partial partial =>
      Partial (mkPartial (partialName partial) (partialDefinition partial)
                 (f partial))
  end.

(** A reference that is not a [PartialPackage]. *)
Definition isFull (ref : PackageReference) : Prop :=
  match ref with
  | Full _ _ => True
  | Partial _ => False
  end.

(** The calls that set a flag, as opposed to [setDependencies]. *)
Definition isMark (c : call) : bool :=
  match c with
  | MarkBinding | MarkBound => true
  | SetDependencies _ => false
  end.

(** ** Environment helpers of a generated SDK ([plant], utilities.go) *)

Module plant.

(** A value of type [interface{}], as far as the helpers below produce one:
    nil, a [bool], a [string] or a [pulumi.StringArray] (kept as the strings
    it was built from). *)
Inductive value : Type :=
  | Nil
  | Bool (b : bool)
  | Text (s : string)
  | StringArray (items : list string).

(** [type envParser func(v string) interface{}] *)
Definition envParser : Type := string -> value.

(** [strconv.ErrSyntax] *)
Definition ErrSyntax : error := errorString "invalid syntax".

(** [strconv.ParseBool], from Go's standard library: it accepts 1, t, T,
    TRUE, true, True, 0, f, F, FALSE, false, False and fails on every other
    string.  The failure is kept as its cause, [ErrSyntax]. *)
Definition ParseBool (str : string) : error + bool :=
  if bool_decide (str ∈ ["1"; "t"; "T"; "TRUE"; "true"; "True"]) then inr true
  else if bool_decide (str ∈ ["0"; "f"; "F"; "FALSE"; "false"; "False"])
  then inr false
  else inl ErrSyntax.

Definition parseEnvBool (v : string) : value :=
  match ParseBool v with
  | inl _ => Nil
  | inr b => Bool b
  end.

(** [strings.Split(s, sep)] for a separator [sep] of one byte, from Go's
    standard library: the pieces of [s] between the occurrences of [sep];
    one piece more than there are occurrences. *)
Fixpoint Split (s : string) (sep : Ascii.ascii) : list string :=
  match s with
  | EmptyString => [EmptyString]
  | String c s' =>
      if decide (c = sep) then EmptyString :: Split s' sep
      else
        match Split s' sep with
        | [] => [String c EmptyString]
        | piece :: pieces => String c piece :: pieces
        end
  end.

(** [strings.Join(elems, sep)] *)
Fixpoint Join (elems : list string) (sep : string) : string :=
  match elems with
  | [] => EmptyString
  | [e] => e
  | e :: elems' => e +:+ sep +:+ Join elems' sep
  end.

(** [strings.Count(s, sep)] for a separator of one byte. *)
Fixpoint Count (s : string) (sep : Ascii.ascii) : nat :=
  match s with
  | EmptyString => 0
  | String c s' => (if decide (c = sep) then 1 else 0) + Count s' sep
  end.

(** The byte [;]. *)
Definition semicolon : Ascii.ascii := Ascii.ascii_of_nat 59.

(** [var result pulumi.StringArray; for _, item := range strings.Split(v, ";")
    { result = append(result, pulumi.String(item)) }] *)
Definition parseEnvStringArray (v : string) : value :=
  StringArray (foldl (fun result item => result ++ [item]) [] (Split v semicolon)).

(** [os.Getenv]: the value of the variable, and the empty string when the
    variable is not set. *)
Definition Getenv (env : gmap string string) (key : string) : string :=
  default EmptyString (env !! key).

(** [getEnvOrDefault(def, parser, vars...)], run in the environment [env];
    a nil [parser] is [None]. *)
Fixpoint getEnvOrDefault (env : gmap string string) (def : value)
    (parser : option envParser) (vars : list string) : value :=
  match vars with
  | [] => def
  | v :: vars' =>
      let value := Getenv env v in
      if decide (value <> EmptyString) then
        match parser with
        | Some parse => parse value
        | None => Text value
        end
      else getEnvOrDefault env def parser vars'
  end.

End plant.

(** ** [pulumi policy new] (cmd/policy_new.go) *)

Module policy_new.

(** [type newPolicyArgs struct] *)
Record newPolicyArgs : Type := mkArgs {
  dir : string;
  force : bool;
  generateOnly : bool;
  interactive : bool;
  offline : bool;
  templateNameOrURL : string;
  yes : bool
}.

(** A [workspace.PolicyPackTemplate], kept as its name. *)
Definition Template : Type := string.

(** What [runNewPolicyPack] does to the outside: the calls it makes to the
    operating system, to the [workspace] package and to its sibling
    functions, and the lines it prints. *)
Inductive event : Type :=
  | Getwd
  | MkdirAll (path : string)
  | Chdir (path : string)
  | ErrorIfNotEmptyDirectory (cwd : string)
  | RetrieveTemplates (templateNameOrURL : string) (offline : bool)
  | PolicyTemplates
  | ChoosePolicyPackTemplate (templates : list Template) (isInteractive : bool)
  | CopyPolicyTemplateFilesDryRun (template : Template) (cwd : string)
  | CopyPolicyPackTemplateFiles (template : Template) (cwd : string)
      (force : bool)
  | Println (line : string)
  | NpmInstallDependencies
  | RepoDelete.

(** The collaborators of [runNewPolicyPack], none of which is defined in
    policy_new.go: how each call ends, given the events that went before
    it.  A call returning only an [error] ends with [None] for nil. *)
Record world : Type := mkWorld {
  getwd : list event -> error + string;
  mkdirAll : list event -> string -> option error;
  chdir : list event -> string -> option error;
  errorIfNotEmptyDirectory : list event -> string -> option error;
  retrieveTemplates : list event -> string -> bool -> option error;
  policyTemplates : list event -> error + list Template;
  choosePolicyPackTemplate :
    list event -> list Template -> bool -> error + Template;
  copyPolicyTemplateFilesDryRun :
    list event -> Template -> string -> option error;
  copyPolicyPackTemplateFiles :
    list event -> Template -> string -> bool -> option error;
  npmInstallDependencies : list event -> option error;
  (** [os.IsNotExist] *)
  isNotExist : error -> bool;
  (** The colorized line announcing that the pack is ready. *)
  readyLine : string
}.

(** [display.Options] is kept as its [IsInteractive] field, the one
    [runNewPolicyPack] sets from its arguments. *)

(** A call to a collaborator: its answer is taken from the events so far,
    and the call is added to them. *)
Definition ask {A} (e : event) (answer : list event -> A) : M (list event) A :=
  fun h => (Ok (answer h), h ++ [e]).

(** [defer cleanup()] before [body]: [cleanup] runs when [body] is left,
    however it is left, and its own outcome is dropped. *)
Definition deferred {S A} (cleanup : M S unit) (body : M S A) : M S A :=
  fun s =>
    let (r, s') := body s in
    (r, exec cleanup s').

(** [errors.Wrap(err, message)] of github.com/pkg/errors, for a non-nil
    [err]. *)
Definition Wrap (err : error) (message : string) : error :=
  wrapError (message +:+ ": " +:+ Error err) err.

(** The error returned when copying the files of a template fails:
    [errors.Wrapf(err, "template '%s' not found", ...)] if [os.IsNotExist]
    holds of it, and the error itself otherwise. *)
Definition copyError (w : world) (args : newPolicyArgs) (err : error) : error :=
  if isNotExist w err
  then Wrap err ("template '" +:+ templateNameOrURL args +:+ "' not found")
  else err.

(** [return err] when [err] is not nil. *)
Definition check (r : option error) (wrap : error -> error)
    : M (list event) unit :=
  match r with
  | Some err => fail (wrap err)
  | None => ret tt
  end.

Definition runNewPolicyPack (w : world) (args0 : newPolicyArgs)
    : M (list event) unit :=
  let args :=
    if negb (interactive args0)
    then mkArgs (dir args0) (force args0) (generateOnly args0)
           (interactive args0) (offline args0) (templateNameOrURL args0) true
    else args0 in
  let* r := ask Getwd (getwd w) in
  match r with
  | inl err => fail (Wrap err "getting the working directory")
  | inr cwd =>
  let* cwd :=
    if decide (dir args <> EmptyString) then
      let* r := ask (MkdirAll (dir args)) (fun h => mkdirAll w h (dir args)) in
      let* _ := check r (fun err => Wrap err "creating the directory") in
      let* r := ask (Chdir (dir args)) (fun h => chdir w h (dir args)) in
      let* _ := check r (fun err => Wrap err "changing the working directory") in
      let* r := ask Getwd (getwd w) in
      match r with
      | inl err => fail (Wrap err "getting the working directory")
      | inr cwd => ret cwd
      end
    else ret cwd in
  let* _ :=
    if negb (force args) then
      let* r := ask (ErrorIfNotEmptyDirectory cwd)
                    (fun h => errorIfNotEmptyDirectory w h cwd) in
      check r id
    else ret tt in
  let* r := ask (RetrieveTemplates (templateNameOrURL args) (offline args))
                (fun h => retrieveTemplates w h (templateNameOrURL args)
                            (offline args)) in
  let* _ := check r id in
  deferred (let* _ := ask RepoDelete (fun _ => tt) in ret tt)
    (let* r := ask PolicyTemplates (policyTemplates w) in
     match r with
     | inl err => fail err
     | inr templates =>
     let* template :=
       match templates with
       | [] => fail (errorString "no templates")
       | [template] => ret template
       | _ =>
           let* r := ask (ChoosePolicyPackTemplate templates (interactive args))
                         (fun h => choosePolicyPackTemplate w h templates
                                     (interactive args)) in
           match r with
           | inl err => fail err
           | inr template => ret template
           end
       end in
     let* _ :=
       if negb (force args) then
         let* r := ask (CopyPolicyTemplateFilesDryRun template cwd)
                       (fun h => copyPolicyTemplateFilesDryRun w h template cwd) in
         check r (copyError w args)
       else ret tt in
     let* r := ask (CopyPolicyPackTemplateFiles template cwd (force args))
                   (fun h => copyPolicyPackTemplateFiles w h template cwd
                               (force args)) in
     let* _ := check r (copyError w args) in
     let* _ := ask (Println "Created policy pack!") (fun _ => tt) in
     let* _ :=
       if negb (generateOnly args) then
         let* r := ask NpmInstallDependencies (npmInstallDependencies w) in
         check r id
       else ret tt in
     let* _ := ask (Println (readyLine w)) (fun _ => tt) in
     let* _ := ask (Println EmptyString) (fun _ => tt) in
     let* _ := ask (Println "Once you're done editting your Policy Pack, run `pulumi policy publish <organization>/<policy_pack_name>` to publish the pack.")
                   (fun _ => tt) in
     ret tt
     end)
  end.

(** In [t], an event [a] occurs and, later, an event [b]. *)
Definition precedes (a b : event) (t : list event) : Prop :=
  exists t1 t2, t = t1 ++ a :: t2 /\ b ∈ t2.

(** The arguments [args] with the [yes] flag set to [b]. *)
Definition withYes (b : bool) (args : newPolicyArgs) : newPolicyArgs :=
  mkArgs (dir args) (force args) (generateOnly args) (interactive args)
    (offline args) (templateNameOrURL args) b.

(** The events of a run that starts with none behind it. *)
Definition trace (w : world) (args : newPolicyArgs) : list event :=
  exec (runNewPolicyPack w args) [].

(** The [error] a run returns: [Ok tt] stands for nil. *)
Definition result (w : world) (args : newPolicyArgs) : outcome unit :=
  eval (runNewPolicyPack w args) [].

(** A world in which every call succeeds: the working directory is [/work]
    until a [Chdir] moves it, the repository holds the templates
    [templates], and the user picks the first of them when asked. *)
Definition calmWorld (templates : list Template) : world :=
  {| getwd := fun h =>
       inr (default "/work"
              (last (omap (fun e => match e with
                                    | Chdir path => Some path
                                    | _ => None
                                    end) h)));
     mkdirAll := fun _ _ => None;
     chdir := fun _ _ => None;
     errorIfNotEmptyDirectory := fun _ _ => None;
     retrieveTemplates := fun _ _ _ => None;
     policyTemplates := fun _ => inr templates;
     choosePolicyPackTemplate := fun _ ts _ =>
       match ts with
       | t :: _ => inr t
       | [] => inl (errorString "nothing to choose from")
       end;
     copyPolicyTemplateFilesDryRun := fun _ _ _ => None;
     copyPolicyPackTemplateFiles := fun _ _ _ _ => None;
     npmInstallDependencies := fun _ => None;
     isNotExist := fun _ => false;
     readyLine := "Your new policy pack is ready to go!" |}.

(** The calm world, except that the working directory is found to hold
    files already. *)
Definition occupiedWorld (templates : list Template) : world :=
  {| getwd := getwd (calmWorld templates);
     mkdirAll := mkdirAll (calmWorld templates);
     chdir := chdir (calmWorld templates);
     errorIfNotEmptyDirectory := fun _ cwd =>
       Some (errorString (cwd +:+ " is not empty"));
     retrieveTemplates := retrieveTemplates (calmWorld templates);
     policyTemplates := policyTemplates (calmWorld templates);
     choosePolicyPackTemplate := choosePolicyPackTemplate (calmWorld templates);
     copyPolicyTemplateFilesDryRun :=
       copyPolicyTemplateFilesDryRun (calmWorld templates);
     copyPolicyPackTemplateFiles :=
       copyPolicyPackTemplateFiles (calmWorld templates);
     npmInstallDependencies := npmInstallDependencies (calmWorld templates);
     isNotExist := isNotExist (calmWorld templates);
     readyLine := readyLine (calmWorld templates) |}.

(** [pulumi policy new aws-typescript --dir packs/aws] *)
Definition sampleArgs : newPolicyArgs :=
  {| dir := "packs/aws";
     force := false;
     generateOnly := false;
     interactive := true;
     offline := false;
     templateNameOrURL := "aws-typescript";
     yes := false |}.

End policy_new.

(** * Properties of [node] *)

Section node_facts.
Implicit Types (r : node) (c : call) (cs : list call).

Lemma invokeAll_cons c cs r :
  invokeAll (c :: cs) r = invokeAll cs (exec (invoke c) r).
Proof. by destruct c. Qed.

Lemma invokeAll_returns cs r : eval (invokeAll cs) r = Ok tt.
Proof.
  revert r. induction cs as [|c cs IH]; intros r; [done|].
  unfold eval. rewrite invokeAll_cons. apply IH.
Qed.

Lemma exec_invokeAll_cons c cs r :
  exec (invokeAll (c :: cs)) r = exec (invokeAll cs) (exec (invoke c) r).
Proof. unfold exec at 1. by rewrite invokeAll_cons. Qed.

Lemma binding_invokeAll cs r :
  binding (exec (invokeAll cs) r) = true <->
  binding r = true \/ MarkBinding ∈ cs.
Proof.
  revert r. induction cs as [|c cs IH]; intros r.
  - cbn. split; [by left|]. intros [?|H]; [done|]. by apply elem_of_nil in H.
  - rewrite exec_invokeAll_cons, IH, elem_of_cons.
    destruct c; cbn; intuition congruence.
Qed.

Lemma bound_invokeAll cs r :
  bound (exec (invokeAll cs) r) = true <->
  bound r = true \/ MarkBound ∈ cs.
Proof.
  revert r. induction cs as [|c cs IH]; intros r.
  - cbn. split; [by left|]. intros [?|H]; [done|]. by apply elem_of_nil in H.
  - rewrite exec_invokeAll_cons, IH, elem_of_cons.
    destruct c; cbn; intuition congruence.
Qed.

Lemma deps_invokeAll cs r :
  deps (exec (invokeAll cs) r) = lastDependencies cs (deps r).
Proof.
  revert r. induction cs as [|c cs IH]; intros r; [done|].
  rewrite exec_invokeAll_cons, IH. by destruct c.
Qed.

Lemma eval_isBound r : eval isBound r = Ok (bound r).
Proof. reflexivity. Qed.

Lemma eval_isBinding r : eval isBinding r = Ok (binding r && negb (bound r)).
Proof. reflexivity. Qed.

Lemma eval_getDependencies r : eval getDependencies r = Ok (deps r).
Proof. reflexivity. Qed.

(** Quantifying over histories covers every value of [node]. *)
Lemma every_node_reachable r : exists cs, after cs = r.
Proof.
  destruct r as [[] [] ds].
  - by exists [MarkBinding; MarkBound; SetDependencies ds].
  - by exists [MarkBinding; SetDependencies ds].
  - by exists [MarkBound; SetDependencies ds].
  - by exists [SetDependencies ds].
Qed.
End node_facts.

(** C4. On a node created zero-valued and then taken through any history of
    [markBinding], [markBound] and [setDependencies] calls, [isBinding()]
    returns a boolean, and that boolean is true exactly when the history
    contains a [markBinding] call and no [markBound] call. *)
Theorem isBinding_iff_binding_and_not_bound (cs : list call) :
  exists b : bool,
    eval isBinding (after cs) = Ok b /\
    (b = true <-> MarkBinding ∈ cs /\ MarkBound ∉ cs).
Proof.
  exists (binding (after cs) && negb (bound (after cs))). split; [done|].
  rewrite andb_true_iff, negb_true_iff, <- not_true_iff_false.
  unfold after. rewrite binding_invokeAll, bound_invokeAll. cbn.
  intuition congruence.
Qed.

(** C5. Once [markBound()] has been called on a node, in whatever state the
    node was, every further history of calls leaves [isBound()] true and
    [isBinding()] false. *)
Theorem bound_is_permanent (r : node) (cs : list call) :
  eval isBound (exec (invokeAll cs) (exec markBound r)) = Ok true /\
  eval isBinding (exec (invokeAll cs) (exec markBound r)) = Ok false.
Proof.
  assert (bound (exec (invokeAll cs) (exec markBound r)) = true) as Hb.
  { apply bound_invokeAll. by left. }
  rewrite eval_isBound, eval_isBinding, Hb. split; [done|].
  by rewrite andb_false_r.
Qed.

(** C7, as claimed, fails: [markBound()] on a node on which [markBinding()]
    was never called is not rejected and makes the node bound, and a second
    [markBinding()] is not rejected either and leaves the node binding. *)
Lemma guarded_transitions_counterexample :
  ~ rejected (eval markBound (after [])) /\
  eval isBound (exec markBound (after [])) = Ok true /\
  ~ rejected (eval markBinding (after [MarkBinding])) /\
  eval isBinding (exec markBinding (after [MarkBinding])) = Ok true.
Proof. repeat split; cbn; tauto. Qed.

(** C7, amended. The transition functions are not guarded: in every state a
    node can be in, [markBinding()] and [markBound()] return normally and
    set their flag whatever the state, leaving the other flag and the
    dependencies as they were.  So [markBound()] makes the node bound
    whether or not [markBinding()] was called before, [markBinding()] makes
    [isBinding()] true on every node that is not bound, and a repeated
    [markBinding()] changes nothing. *)
Theorem transitions_are_unguarded (cs : list call) :
  ~ rejected (eval markBinding (after cs)) /\
  ~ rejected (eval markBound (after cs)) /\
  exec markBinding (after cs)
    = {| binding := true; bound := bound (after cs); deps := deps (after cs) |} /\
  exec markBound (after cs)
    = {| binding := binding (after cs); bound := true;
         deps := deps (after cs) |} /\
  eval isBinding (exec markBinding (after cs)) = Ok (negb (bound (after cs))) /\
  eval isBound (exec markBound (after cs)) = Ok true /\
  exec markBinding (exec markBinding (after cs)) = exec markBinding (after cs).
Proof.
  split; [cbn; tauto|]. split; [cbn; tauto|].
  split; [reflexivity|]. split; [reflexivity|].
  split; [by rewrite eval_isBinding|]. split; reflexivity.
Qed.

(** C8, as claimed, fails: a node that is binding but not yet bound answers
    [getDependencies()] with the dependencies stored in it. *)
Lemma getDependencies_guard_counterexample :
  ~ (eval isBound (after [MarkBinding; SetDependencies [7]]) = Ok false ->
     rejected (eval getDependencies (after [MarkBinding; SetDependencies [7]]))).
Proof. intros H. apply H. reflexivity. Qed.

(** C8, amended. [getDependencies()] is not guarded by the binding state:
    after every history of calls it returns normally, with the argument of
    the latest [setDependencies()] call, or the nil slice when there was
    none. *)
Theorem getDependencies_returns_last_set (cs : list call) :
  eval getDependencies (after cs) = Ok (lastDependencies cs []).
Proof.
  rewrite eval_getDependencies. unfold after. by rewrite deps_invokeAll.
Qed.

(** C10. On a freshly created node [isBinding()] and [isBound()] return
    false and [getDependencies()] returns the empty slice. *)
Theorem zero_node_is_unbound :
  eval isBinding zeroNode = Ok false /\
  eval isBound zeroNode = Ok false /\
  eval getDependencies zeroNode = Ok [].
Proof. by repeat split. Qed.

(** * Properties of the method monad *)

Section monad_facts.
Context {S : Type}.

Lemma readonly_ret {A} (a : A) : readonly (ret (S:=S) a).
Proof. by intros s. Qed.

Lemma readonly_read {A} (f : S -> A) : readonly (read f).
Proof. by intros s. Qed.

Lemma readonly_fail {A} e : readonly (fail (S:=S) (A:=A) e).
Proof. by intros s. Qed.

Lemma readonly_panic {A} e : readonly (panic (S:=S) (A:=A) e).
Proof. by intros s. Qed.

Lemma readonly_lift {A} (o : outcome A) : readonly (lift (S:=S) o).
Proof. by intros s. Qed.

Lemma readonly_bind {A B} (m : M S A) (f : A -> M S B) :
  readonly m -> (forall a, readonly (f a)) -> readonly (bind m f).
Proof.
  intros Hm Hf s. specialize (Hm s). unfold exec, bind in *.
  destruct (m s) as [[a|e|e] s']; cbn in *; subst; [apply Hf|done..].
Qed.

(** Sequencing after a read-only method: the continuation runs on the
    receiver the method was called on. *)
Lemma eval_bind_readonly {A B} (m : M S A) (f : A -> M S B) s :
  readonly m ->
  eval (bind m f) s =
    match eval m s with
    | Ok a => eval (f a) s
    | Err e => Err e
    | Panic e => Panic e
    end.
Proof.
  intros Hm. specialize (Hm s). unfold eval, exec, bind in *.
  by destruct (m s) as [[a|e|e] s']; cbn in *; subst.
Qed.
End monad_facts.

Create HintDb readonly.
#[local] Hint Resolve readonly_ret readonly_read readonly_fail readonly_panic
  readonly_lift : readonly.

(** * Properties of sorting and of the key listing *)

Section sorting_facts.
Implicit Types (m : gmap string PackageReference) (l : list string).

Lemma appendKeys_app keys order : appendKeys keys order = keys ++ order.
Proof.
  revert keys. induction order as [|k order IH]; intros keys; cbn.
  - by rewrite app_nil_r.
  - unfold appendKeys in IH. by rewrite IH, <- app_assoc.
Qed.

(** The result of [sort.Strings] depends on the elements only. *)
Lemma sort_Strings_Permutation l1 l2 :
  l1 ≡ₚ l2 -> sort_Strings l1 = sort_Strings l2.
Proof.
  intros Hl. unfold sort_Strings.
  apply (Sorted_unique String.le); [apply Sorted_merge_sort, _..|].
  by rewrite !merge_sort_Permutation.
Qed.

Lemma StronglySorted_strict {A} (R : relation A) `{!AntiSymm (=) R}
    (l : list A) :
  StronglySorted R l -> NoDup l -> StronglySorted (strict R) l.
Proof.
  induction 1 as [|x l Hl IH Hx]; intros Hnd; [constructor|].
  apply NoDup_cons in Hnd as [Hxl Hnd]. constructor; [by apply IH|].
  rewrite Forall_forall in Hx |- *. intros y Hy.
  apply strict_spec_alt. split; [by apply Hx|]. by intros ->.
Qed.

Lemma tableKeys_Permutation m : tableKeys m ≡ₚ (map_to_list m).*1.
Proof. apply merge_sort_Permutation. Qed.

Lemma tableKeys_NoDup m : NoDup (tableKeys m).
Proof. rewrite tableKeys_Permutation. apply NoDup_fst_map_to_list. Qed.

Lemma tableKeys_ascending m : StronglySorted (strict String.le) (tableKeys m).
Proof.
  apply StronglySorted_strict; [apply _| |apply tableKeys_NoDup].
  apply StronglySorted_merge_sort; apply _.
Qed.

Lemma elem_of_tableKeys m k : k ∈ tableKeys m <-> is_Some (m !! k).
Proof.
  rewrite tableKeys_Permutation, list_elem_of_fmap. split.
  - intros [[k' ref] [-> H]]. apply elem_of_map_to_list in H. by exists ref.
  - intros [ref H]. exists (k, ref). split; [done|].
    by apply elem_of_map_to_list.
Qed.

Lemma length_tableKeys m : length (tableKeys m) = size m.
Proof.
  by rewrite tableKeys_Permutation, length_fmap, length_map_to_list.
Qed.

(** In an ascending list, what is smaller than an element stands before
    it. *)
Lemma ascending_before (pre post : list string) k k' :
  StronglySorted (strict String.le) (pre ++ k :: post) ->
  k' ∈ pre ++ k :: post -> strict String.le k' k -> k' ∈ pre.
Proof.
  intros Hs Hin Hlt.
  apply elem_of_app in Hin as [?|Hin]; [done|].
  apply StronglySorted_app_1_r in Hs.
  apply elem_of_cons in Hin as [->|Hin].
  - by destruct Hlt as [? []].
  - apply StronglySorted_inv in Hs as [_ Hk].
    rewrite Forall_forall in Hk. destruct (Hk _ Hin) as [? Hn].
    destruct Hlt as [? _]. by destruct Hn.
Qed.
End sorting_facts.

(** A list of calls either succeeds throughout, or has a first call that
    does not return normally. *)
Lemma first_failure {A B} (f : A -> outcome B) (l : list A) :
  (exists bs, Forall2 (fun a b => f a = Ok b) l bs) \/
  (exists pre a post bs,
      l = pre ++ a :: post /\
      Forall2 (fun a b => f a = Ok b) pre bs /\
      rejected (f a)).
Proof.
  induction l as [|a l IH].
  - left. exists []. constructor.
  - destruct (f a) as [b|e|e] eqn:Ha.
    + destruct IH as [[bs Hbs]|(pre & a' & post & bs & -> & Hbs & Hr)].
      * left. exists (b :: bs). by constructor.
      * right. exists (a :: pre), a', post, (b :: bs).
        split; [done|]. split; [by constructor|done].
    + right. exists [], a, l, []. rewrite Ha. by repeat split; try constructor.
    + right. exists [], a, l, []. rewrite Ha. by repeat split; try constructor.
Qed.

(** * Properties of the package queries *)

Section query_facts.
Context {range : MapRange}.
Implicit Types (p : Program) (keys : list string).

Lemma eval_bind_read {S A B} (f : S -> A) (k : A -> M S B) s :
  eval (bind (read f) k) s = eval (k (f s)) s.
Proof. reflexivity. Qed.

(** ** The queries write nothing *)

Lemma sortedKeys_readonly : readonly sortedKeys.
Proof. apply readonly_bind; auto with readonly. Qed.

Lemma PackageReferences_loop_readonly keys values :
  readonly (PackageReferences_loop keys values).
Proof.
  revert values. induction keys as [|k keys IH]; intros values; cbn.
  - auto with readonly.
  - apply readonly_bind; auto with readonly.
Qed.

Lemma PackageReferences_readonly : readonly PackageReferences.
Proof.
  apply readonly_bind; [apply sortedKeys_readonly|].
  intros keys. apply PackageReferences_loop_readonly.
Qed.

Lemma Packages_loop_readonly i refs defs :
  readonly (Packages_loop i refs defs).
Proof.
  revert i defs. induction refs as [|ref refs IH]; intros i defs; cbn.
  - auto with readonly.
  - destruct (callDefinition ref); auto with readonly.
Qed.

Lemma Packages_readonly : readonly Packages.
Proof.
  apply readonly_bind; [apply PackageReferences_readonly|].
  intros refs. apply Packages_loop_readonly.
Qed.

Lemma PackageSnapshots_loop_readonly keys values :
  readonly (PackageSnapshots_loop keys values).
Proof.
  revert values. induction keys as [|k keys IH]; intros values; cbn.
  - auto with readonly.
  - apply readonly_bind; [auto with readonly|]. intros ref.
    destruct (materialize ref); [apply IH| |auto with readonly].
    apply readonly_bind; auto with readonly.
Qed.

Lemma PackageSnapshots_readonly : readonly PackageSnapshots.
Proof.
  apply readonly_bind; [apply sortedKeys_readonly|].
  intros keys. apply PackageSnapshots_loop_readonly.
Qed.

(** ** What the queries compute *)

Lemma eval_sortedKeys p : eval sortedKeys p = Ok (tableKeys (tableOf p)).
Proof.
  unfold sortedKeys. rewrite eval_bind_read. cbn. f_equal.
  rewrite appendKeys_app. cbn. apply sort_Strings_Permutation, rangeKeys_perm.
Qed.

Lemma eval_PackageReferences_loop keys values p :
  eval (PackageReferences_loop keys values) p =
    Ok (values ++ ((tableOf p !!.) <$> keys)).
Proof.
  revert values. induction keys as [|k keys IH]; intros values; cbn.
  - by rewrite app_nil_r.
  - rewrite eval_bind_read, IH, <- app_assoc. done.
Qed.

Lemma eval_PackageReferences p :
  eval PackageReferences p = Ok ((tableOf p !!.) <$> tableKeys (tableOf p)).
Proof.
  unfold PackageReferences.
  rewrite (eval_bind_readonly _ _ _ sortedKeys_readonly), eval_sortedKeys.
  apply eval_PackageReferences_loop.
Qed.

Lemma eval_Packages p :
  eval Packages p =
    let refs := (tableOf p !!.) <$> tableKeys (tableOf p) in
    eval (Packages_loop 0 refs (replicate (length refs) None)) p.
Proof.
  unfold Packages.
  by rewrite (eval_bind_readonly _ _ _ PackageReferences_readonly),
    eval_PackageReferences.
Qed.

Lemma eval_PackageSnapshots p :
  eval PackageSnapshots p =
    eval (PackageSnapshots_loop (tableKeys (tableOf p)) []) p.
Proof.
  unfold PackageSnapshots.
  by rewrite (eval_bind_readonly _ _ _ sortedKeys_readonly), eval_sortedKeys.
Qed.

Lemma eval_Packages_loop_ok i refs defs ds p :
  Forall2 (fun ref def => callDefinition ref = Ok def) refs ds ->
  i + length refs = length defs ->
  eval (Packages_loop i refs defs) p = Ok (take i defs ++ (Some <$> ds)).
Proof.
  intros Hall. revert i defs.
  induction Hall as [|ref def refs ds Hdef _ IH]; intros i defs Hlen; cbn.
  - rewrite app_nil_r, take_ge; [done|]. cbn in Hlen. lia.
  - cbn in Hlen. rewrite Hdef, IH by (rewrite length_insert; lia).
    rewrite (take_S_r _ _ (Some def))
      by (apply list_lookup_insert_eq; lia).
    by rewrite take_insert_ge, <- app_assoc.
Qed.

Lemma eval_Packages_loop_err i pre ref post defs ds err p :
  Forall2 (fun ref def => callDefinition ref = Ok def) pre ds ->
  callDefinition ref = Err err ->
  eval (Packages_loop i (pre ++ ref :: post) defs) p =
    Panic (Errorf_w "loading package definition: " err).
Proof.
  intros Hall Herr. revert i defs.
  induction Hall as [|ref' def pre ds Hdef _ IH]; intros i defs; cbn.
  - by rewrite Herr.
  - by rewrite Hdef, IH.
Qed.

Lemma eval_PackageSnapshots_loop_ok keys values pkgs p :
  Forall2 (fun k pkg => materialize (tableOf p !! k) = Ok pkg) keys pkgs ->
  eval (PackageSnapshots_loop keys values) p = Ok (values ++ (Some <$> pkgs)).
Proof.
  intros Hall. revert values.
  induction Hall as [|k pkg keys pkgs Hpkg _ IH]; intros values; cbn.
  - by rewrite app_nil_r.
  - rewrite eval_bind_read. fold (tableOf p). rewrite Hpkg, IH.
    by rewrite <- app_assoc.
Qed.

Lemma eval_PackageSnapshots_loop_err pre k post values pkgs ref err p :
  Forall2 (fun k pkg => materialize (tableOf p !! k) = Ok pkg) pre pkgs ->
  tableOf p !! k = Some ref ->
  materialize (Some ref) = Err err ->
  eval (PackageSnapshots_loop (pre ++ k :: post) values) p =
    Err (Errorf_w ("defining package '" +:+ Name ref +:+ "': ") err).
Proof.
  intros Hall Hk Herr. revert values.
  induction Hall as [|k' pkg pre pkgs Hpkg _ IH]; intros values; cbn.
  - rewrite eval_bind_read. fold (tableOf p). by rewrite Hk, Herr.
  - rewrite eval_bind_read. fold (tableOf p). by rewrite Hpkg, IH.
Qed.
End query_facts.

Section query_cases.
Context {range : MapRange}.
Implicit Types (p : Program).

Lemma rejected_returned {A} (r : error + A) :
  rejected (returned r) -> exists err, r = inl err.
Proof. destruct r as [err|a]; [by exists err|done]. Qed.

Lemma materialize_Some_returned ref :
  exists r, materialize (Some ref) = returned r.
Proof.
  destruct ref as [name definition|partial]; cbn.
  - by exists definition.
  - by exists (Snapshot partial).
Qed.

(** Over the ascending names of a table, a call on the stored references
    either succeeds for all, or is rejected for a first name. *)
Lemma table_first_failure (f : option PackageReference -> outcome Package)
    (m : gmap string PackageReference) :
  (exists bs, Forall2 (fun k b => f (m !! k) = Ok b) (tableKeys m) bs) \/
  (exists pre k post bs ref,
      tableKeys m = pre ++ k :: post /\
      Forall2 (fun k b => f (m !! k) = Ok b) pre bs /\
      m !! k = Some ref /\
      rejected (f (Some ref))).
Proof.
  destruct (first_failure (fun k => f (m !! k)) (tableKeys m))
    as [?|(pre & k & post & bs & Hkeys & Hpre & Hr)]; [by left|right].
  assert (is_Some (m !! k)) as [ref Hk].
  { apply elem_of_tableKeys. rewrite Hkeys. set_solver. }
  exists pre, k, post, bs, ref. by rewrite Hk in Hr.
Qed.

(** [Packages()] returns the definition of every reference, by ascending
    name, or panics at the first name whose definition cannot be loaded. *)
Lemma eval_Packages_cases p :
  (exists ds,
      Forall2 (fun k d => callDefinition (tableOf p !! k) = Ok d)
              (tableKeys (tableOf p)) ds /\
      eval Packages p = Ok (Some <$> ds)) \/
  (exists pre k post ds ref err,
      tableKeys (tableOf p) = pre ++ k :: post /\
      Forall2 (fun k d => callDefinition (tableOf p !! k) = Ok d) pre ds /\
      tableOf p !! k = Some ref /\
      Definition_of ref = inl err /\
      eval Packages p = Panic (Errorf_w "loading package definition: " err)).
Proof.
  rewrite eval_Packages. cbn zeta.
  destruct (table_first_failure callDefinition (tableOf p))
    as [[ds Hds]|(pre & k & post & ds & ref & Hkeys & Hpre & Hk & Hr)].
  - left. exists ds. split; [done|].
    rewrite (eval_Packages_loop_ok _ _ _ ds); [done| |].
    + by apply Forall2_fmap_l.
    + by rewrite length_replicate.
  - right. apply rejected_returned in Hr as [err Herr].
    exists pre, k, post, ds, ref, err. repeat split; [done..|].
    rewrite Hkeys, fmap_app, fmap_cons.
    apply (eval_Packages_loop_err _ _ _ _ _ ds).
    + by apply Forall2_fmap_l.
    + rewrite Hk. cbn. by rewrite Herr.
Qed.

(** [PackageSnapshots()] returns the snapshot or definition of every
    reference, by ascending name, or returns the error of the first name
    that cannot be materialized. *)
Lemma eval_PackageSnapshots_cases p :
  (exists pkgs,
      Forall2 (fun k pkg => materialize (tableOf p !! k) = Ok pkg)
              (tableKeys (tableOf p)) pkgs /\
      eval PackageSnapshots p = Ok (Some <$> pkgs)) \/
  (exists pre k post pkgs ref err,
      tableKeys (tableOf p) = pre ++ k :: post /\
      Forall2 (fun k pkg => materialize (tableOf p !! k) = Ok pkg) pre pkgs /\
      tableOf p !! k = Some ref /\
      materialize (Some ref) = Err err /\
      eval PackageSnapshots p =
        Err (Errorf_w ("defining package '" +:+ Name ref +:+ "': ") err)).
Proof.
  rewrite eval_PackageSnapshots.
  destruct (table_first_failure materialize (tableOf p))
    as [[pkgs Hpkgs]|(pre & k & post & pkgs & ref & Hkeys & Hpre & Hk & Hr)].
  - left. exists pkgs. split; [done|].
    by rewrite (eval_PackageSnapshots_loop_ok _ _ pkgs).
  - right. destruct (materialize_Some_returned ref) as [r Hm].
    rewrite Hm in Hr. apply rejected_returned in Hr as [err ->].
    exists pre, k, post, pkgs, ref, err. repeat split; [done..|].
    rewrite Hkeys. by apply (eval_PackageSnapshots_loop_err _ _ _ _ pkgs).
Qed.

(** What stands before the first failure in an ascending listing
    succeeded. *)
Lemma before_first_failure (f : option PackageReference -> outcome Package)
    (m : gmap string PackageReference) pre k post bs k' :
  tableKeys m = pre ++ k :: post ->
  Forall2 (fun k b => f (m !! k) = Ok b) pre bs ->
  is_Some (m !! k') -> strict String.le k' k ->
  exists b, f (m !! k') = Ok b.
Proof.
  intros Hkeys Hpre Hk' Hlt.
  assert (k' ∈ pre) as Hin.
  { apply (ascending_before pre post k); [| |done].
    - rewrite <- Hkeys. apply tableKeys_ascending.
    - rewrite <- Hkeys. by apply elem_of_tableKeys. }
  apply list_elem_of_lookup_1 in Hin as [i Hi].
  destruct (Forall2_lookup_l _ _ _ _ _ Hpre Hi) as (b & _ & Hb). by exists b.
Qed.
End query_cases.

Lemma returned_Ok {A} (r : error + A) (a : A) : returned r = Ok a <-> r = inr a.
Proof. destruct r; cbn; split; congruence. Qed.

(** What holds along the whole ascending listing holds for every stored
    reference. *)
Lemma along_tableKeys (f : option PackageReference -> outcome Package) m bs k ref :
  Forall2 (fun k b => f (m !! k) = Ok b) (tableKeys m) bs ->
  m !! k = Some ref -> exists b, f (Some ref) = Ok b.
Proof.
  intros Hall Hk.
  assert (k ∈ tableKeys m) as Hin by (apply elem_of_tableKeys; by exists ref).
  apply list_elem_of_lookup_1 in Hin as [i Hi].
  destruct (Forall2_lookup_l _ _ _ _ _ Hall Hi) as (b & _ & Hb).
  exists b. by rewrite Hk in Hb.
Qed.

Lemma append_assoc (s1 s2 s3 : string) :
  (s1 +:+ s2) +:+ s3 = s1 +:+ s2 +:+ s3.
Proof.
  induction s1 as [|a s1 IH]; [done|].
  change (String a ((s1 +:+ s2) +:+ s3) = String a (s1 +:+ s2 +:+ s3)).
  by rewrite IH.
Qed.

(** * The claims about the package queries *)

(** C1, as claimed, fails: on a program one of whose references cannot load
    its definition, [Packages()] does not return an error. *)
Lemma Packages_returns_error_counterexample :
  ~ ((exists k ref err,
         tableOf brokenProgram !! k = Some ref /\ Definition_of ref = inl err) ->
     exists e, eval (Packages (range:=listingRange)) brokenProgram = Err e).
Proof.
  intros H. destruct H as [e He]; [|by vm_compute in He].
  by exists "kubernetes",
    (Partial (mkPartial "kubernetes" (inl notFound) (inl notFound))), notFound.
Qed.

(** C1, amended. When the definition of some referenced package cannot be
    loaded, [Packages()] panics: the panic value wraps, under the prefix
    "loading package definition: ", the error of the first reference in
    ascending name order whose [Definition()] fails.  No list is returned,
    partial or otherwise. *)
Theorem Packages_panics_on_failed_definition (range : MapRange) (p : Program) :
  (exists k ref err,
      tableOf p !! k = Some ref /\ Definition_of ref = inl err) ->
  exists k ref err,
    tableOf p !! k = Some ref /\
    Definition_of ref = inl err /\
    (forall k' ref', tableOf p !! k' = Some ref' -> strict String.le k' k ->
       exists def, Definition_of ref' = inr def) /\
    eval Packages p = Panic (Errorf_w "loading package definition: " err) /\
    (forall defs, eval Packages p <> Ok defs).
Proof.
  intros (k0 & ref0 & err0 & Hk0 & Herr0).
  destruct (eval_Packages_cases p)
    as [(ds & Hds & _)|(pre & k & post & ds & ref & err & Hkeys & Hpre & Hk & Herr & Hp)].
  - assert (k0 ∈ tableKeys (tableOf p)) as Hin
      by (apply elem_of_tableKeys; by exists ref0).
    apply list_elem_of_lookup_1 in Hin as [i Hi].
    destruct (Forall2_lookup_l _ _ _ _ _ Hds Hi) as (d & _ & Hd).
    rewrite Hk0 in Hd. cbn in Hd. by rewrite Herr0 in Hd.
  - exists k, ref, err. repeat split; [done..| |done|by rewrite Hp].
    intros k' ref' Hk' Hlt.
    destruct (before_first_failure callDefinition _ _ _ _ _ k' Hkeys Hpre)
      as [def Hdef]; [by exists ref'|done|].
    exists def. rewrite Hk' in Hdef. cbn in Hdef.
    by destruct (Definition_of ref'); simplify_eq/=.
Qed.

(** The panic of [Packages()] on [brokenProgram], whose ["kubernetes"]
    reference cannot be loaded. *)
Lemma Packages_panics_on_failed_definition_witness :
  exists k ref err,
    tableOf brokenProgram !! k = Some ref /\
    Definition_of ref = inl err /\
    (forall k' ref', tableOf brokenProgram !! k' = Some ref' ->
       strict String.le k' k -> exists def, Definition_of ref' = inr def) /\
    eval (Packages (range:=reverseRange)) brokenProgram =
      Panic (Errorf_w "loading package definition: " err) /\
    (forall defs, eval (Packages (range:=reverseRange)) brokenProgram <> Ok defs).
Proof.
  apply (Packages_panics_on_failed_definition reverseRange brokenProgram).
  exists "kubernetes",
    (Partial (mkPartial "kubernetes" (inl notFound) (inl notFound))), notFound.
  split; reflexivity.
Defined.

(** C2. When the snapshot of a partial reference, or the definition of any
    other reference, cannot be produced, [PackageSnapshots()] returns an
    error and no list.  The error wraps the failure of the first such
    reference in ascending name order, and its message starts with
    "defining package '<name>': " for the name of that reference. *)
Theorem PackageSnapshots_all_or_nothing (range : MapRange) (p : Program) :
  (exists k ref err,
      tableOf p !! k = Some ref /\ materialize (Some ref) = Err err) ->
  exists k ref err e,
    tableOf p !! k = Some ref /\
    materialize (Some ref) = Err err /\
    (forall k' ref', tableOf p !! k' = Some ref' -> strict String.le k' k ->
       exists pkg, materialize (Some ref') = Ok pkg) /\
    eval PackageSnapshots p = Err e /\
    Error e = "defining package '" +:+ Name ref +:+ "': " +:+ Error err /\
    Unwrap e = Some err.
Proof.
  intros (k0 & ref0 & err0 & Hk0 & Herr0).
  destruct (eval_PackageSnapshots_cases p)
    as [(pkgs & Hpkgs & _)
       |(pre & k & post & pkgs & ref & err & Hkeys & Hpre & Hk & Herr & Hp)].
  - assert (k0 ∈ tableKeys (tableOf p)) as Hin
      by (apply elem_of_tableKeys; by exists ref0).
    apply list_elem_of_lookup_1 in Hin as [i Hi].
    destruct (Forall2_lookup_l _ _ _ _ _ Hpkgs Hi) as (pkg & _ & Hpkg).
    rewrite Hk0, Herr0 in Hpkg. done.
  - exists k, ref, err,
      (Errorf_w ("defining package '" +:+ Name ref +:+ "': ") err).
    repeat split; [done..| |done|].
    + intros k' ref' Hk' Hlt.
      destruct (before_first_failure materialize _ _ _ _ _ k' Hkeys Hpre)
        as [pkg Hpkg]; [by exists ref'|done|].
      exists pkg. by rewrite Hk' in Hpkg.
    + cbn. by rewrite !append_assoc.
Qed.

(** The error of [PackageSnapshots()] on [brokenProgram]. *)
Lemma PackageSnapshots_all_or_nothing_witness :
  exists k ref err e,
    tableOf brokenProgram !! k = Some ref /\
    materialize (Some ref) = Err err /\
    (forall k' ref', tableOf brokenProgram !! k' = Some ref' ->
       strict String.le k' k -> exists pkg, materialize (Some ref') = Ok pkg) /\
    eval (PackageSnapshots (range:=listingRange)) brokenProgram = Err e /\
    Error e = "defining package '" +:+ Name ref +:+ "': " +:+ Error err /\
    Unwrap e = Some err.
Proof.
  apply (PackageSnapshots_all_or_nothing listingRange brokenProgram).
  exists "kubernetes",
    (Partial (mkPartial "kubernetes" (inl notFound) (inl notFound))), notFound.
  split; reflexivity.
Defined.

(** A property of the listing of a table holds of every stored
    reference. *)
Lemma table_forall_by_listing (P : string -> PackageReference -> Prop)
    (m : gmap string PackageReference) :
  Forall (fun kr => P kr.1 kr.2) (map_to_list m) ->
  forall k ref, m !! k = Some ref -> P k ref.
Proof.
  rewrite Forall_forall. intros H k ref Hk.
  apply (H (k, ref)). by apply elem_of_map_to_list.
Qed.

(** C3, as claimed, fails: on a program one of whose references can be
    neither loaded nor snapshotted, [Packages()] and [PackageSnapshots()]
    return no list at all, so not one with an entry per name. *)
Lemma queries_list_counterexample :
  ~ (exists defs,
        eval (Packages (range:=listingRange)) brokenProgram = Ok defs /\
        listsByName (tableOf brokenProgram)
          (fun _ ref v => exists def, Definition_of ref = inr def /\ v = Some def)
          defs) /\
  ~ (exists pkgs,
        eval (PackageSnapshots (range:=listingRange)) brokenProgram = Ok pkgs /\
        listsByName (tableOf brokenProgram)
          (fun _ ref v => exists pkg,
             materialize (Some ref) = Ok pkg /\ v = Some pkg)
          pkgs).
Proof.
  split; intros (l & H & _); vm_compute in H; discriminate H.
Qed.

(** C3, amended. [PackageReferences()] always returns one entry per name of
    the table, by strictly ascending name: the stored reference.
    [Packages()] returns such a list of definitions exactly when
    [Definition()] succeeds for every stored reference, and
    [PackageSnapshots()] such a list of snapshots or definitions exactly
    when [Snapshot()], for a partial reference, or [Definition()], for any
    other, succeeds for every stored reference.  The order in which [range]
    visits the table does not matter: under any two orders the three queries
    end the same way. *)
Theorem queries_list_by_ascending_name (range1 range2 : MapRange) (p : Program) :
  StronglySorted (strict String.le) (tableKeys (tableOf p)) /\
  (forall k, k ∈ tableKeys (tableOf p) <-> is_Some (tableOf p !! k)) /\
  (exists refs,
      eval (PackageReferences (range:=range1)) p = Ok refs /\
      listsByName (tableOf p) (fun _ ref v => v = Some ref) refs) /\
  ((forall k ref, tableOf p !! k = Some ref ->
      exists def, Definition_of ref = inr def) ->
   exists defs,
      eval (Packages (range:=range1)) p = Ok defs /\
      listsByName (tableOf p)
        (fun _ ref v => exists def, Definition_of ref = inr def /\ v = Some def)
        defs) /\
  (forall defs,
      eval (Packages (range:=range1)) p = Ok defs ->
      listsByName (tableOf p)
        (fun _ ref v => exists def, Definition_of ref = inr def /\ v = Some def)
        defs /\
      (forall k ref, tableOf p !! k = Some ref ->
         exists def, Definition_of ref = inr def)) /\
  ((forall k ref, tableOf p !! k = Some ref ->
      exists pkg, materialize (Some ref) = Ok pkg) ->
   exists pkgs,
      eval (PackageSnapshots (range:=range1)) p = Ok pkgs /\
      listsByName (tableOf p)
        (fun _ ref v => exists pkg,
           materialize (Some ref) = Ok pkg /\ v = Some pkg)
        pkgs) /\
  (forall pkgs,
      eval (PackageSnapshots (range:=range1)) p = Ok pkgs ->
      listsByName (tableOf p)
        (fun _ ref v => exists pkg,
           materialize (Some ref) = Ok pkg /\ v = Some pkg)
        pkgs /\
      (forall k ref, tableOf p !! k = Some ref ->
         exists pkg, materialize (Some ref) = Ok pkg)) /\
  eval (PackageReferences (range:=range1)) p =
    eval (PackageReferences (range:=range2)) p /\
  eval (Packages (range:=range1)) p = eval (Packages (range:=range2)) p /\
  eval (PackageSnapshots (range:=range1)) p =
    eval (PackageSnapshots (range:=range2)) p.
Proof.
  assert (forall defs,
            eval (Packages (range:=range1)) p = Ok defs ->
            listsByName (tableOf p)
              (fun _ ref v => exists def,
                 Definition_of ref = inr def /\ v = Some def) defs /\
            (forall k ref, tableOf p !! k = Some ref ->
               exists def, Definition_of ref = inr def)) as Hdefs.
  { intros defs Hdefs.
    destruct (eval_Packages_cases (range:=range1) p)
      as [(ds & Hds & Hp)|(? & ? & ? & ? & ? & ? & _ & _ & _ & _ & Hp)];
      [|congruence].
    rewrite Hp in Hdefs. injection Hdefs as <-. split.
    - apply Forall2_fmap_r. eapply Forall2_impl; [exact Hds|].
      intros k d Hd; cbn in Hd.
      destruct (tableOf p !! k) as [ref|] eqn:Hk; [|done].
      exists ref. split; [done|]. exists d. split; [|done].
      by apply returned_Ok.
    - intros k ref Hk.
      destruct (along_tableKeys callDefinition _ _ _ _ Hds Hk) as [def Hdef].
      exists def. by apply returned_Ok. }
  assert (forall pkgs,
            eval (PackageSnapshots (range:=range1)) p = Ok pkgs ->
            listsByName (tableOf p)
              (fun _ ref v => exists pkg,
                 materialize (Some ref) = Ok pkg /\ v = Some pkg) pkgs /\
            (forall k ref, tableOf p !! k = Some ref ->
               exists pkg, materialize (Some ref) = Ok pkg)) as Hpkgs.
  { intros pkgs Hpkgs.
    destruct (eval_PackageSnapshots_cases (range:=range1) p)
      as [(ps & Hps & Hp)|(? & ? & ? & ? & ? & ? & _ & _ & _ & _ & Hp)];
      [|congruence].
    rewrite Hp in Hpkgs. injection Hpkgs as <-. split.
    - apply Forall2_fmap_r. eapply Forall2_impl; [exact Hps|].
      intros k pkg Hpkg; cbn in Hpkg.
      destruct (tableOf p !! k) as [ref|] eqn:Hk; [|done].
      exists ref. split; [done|]. by exists pkg.
    - intros k ref Hk. apply (along_tableKeys materialize _ _ _ _ Hps Hk). }
  split; [apply tableKeys_ascending|].
  split; [apply elem_of_tableKeys|].
  split; [|split; [|split; [exact Hdefs|split; [|split; [exact Hpkgs|]]]]].
  - exists ((tableOf p !!.) <$> tableKeys (tableOf p)).
    split; [apply eval_PackageReferences|].
    apply Forall2_fmap_r, Forall_Forall2_diag, Forall_forall.
    intros k [ref Hk]%elem_of_tableKeys. by exists ref.
  - intros Hall.
    destruct (eval_Packages_cases (range:=range1) p)
      as [(ds & _ & Hp)|(? & k & ? & ? & ref & err & _ & _ & Hk & Herr & _)].
    + exists (Some <$> ds). split; [done|]. by apply Hdefs.
    + destruct (Hall k ref Hk) as [def Hdef]. congruence.
  - intros Hall.
    destruct (eval_PackageSnapshots_cases (range:=range1) p)
      as [(ps & _ & Hp)|(? & k & ? & ? & ref & err & _ & _ & Hk & Herr & _)].
    + exists (Some <$> ps). split; [done|]. by apply Hpkgs.
    + destruct (Hall k ref Hk) as [pkg Hpkg]. congruence.
  - split; [by rewrite !eval_PackageReferences|].
    split; [by rewrite !eval_Packages|by rewrite !eval_PackageSnapshots].
Qed.

(** The lists [Packages()] and [PackageSnapshots()] return on
    [healthyProgram], all of whose references load, and the outcome of
    [PackageReferences()] under two orders of [range]. *)
Lemma queries_list_by_ascending_name_witness :
  (exists defs,
      eval (Packages (range:=listingRange)) healthyProgram = Ok defs /\
      listsByName (tableOf healthyProgram)
        (fun _ ref v => exists def, Definition_of ref = inr def /\ v = Some def)
        defs) /\
  (exists pkgs,
      eval (PackageSnapshots (range:=listingRange)) healthyProgram = Ok pkgs /\
      listsByName (tableOf healthyProgram)
        (fun _ ref v => exists pkg,
           materialize (Some ref) = Ok pkg /\ v = Some pkg)
        pkgs) /\
  eval (PackageReferences (range:=listingRange)) healthyProgram =
    eval (PackageReferences (range:=reverseRange)) healthyProgram.
Proof.
  destruct (queries_list_by_ascending_name listingRange reverseRange
              healthyProgram)
    as (_ & _ & _ & Hdefs & _ & Hpkgs & _ & Hrefs & _).
  split; [|split; [|exact Hrefs]].
  - apply Hdefs.
    apply (table_forall_by_listing
             (fun _ ref => exists def, Definition_of ref = inr def)).
    vm_compute. repeat constructor; eexists; reflexivity.
  - apply Hpkgs.
    apply (table_forall_by_listing
             (fun _ ref => exists pkg, materialize (Some ref) = Ok pkg)).
    vm_compute. repeat constructor; eexists; reflexivity.
Defined.

(** C6. When both queries return, a reference that is not partial has the
    same package at its position in the list of [PackageSnapshots()] as in
    the list of [Packages()]: its definition. *)
Theorem full_reference_agrees (range1 range2 : MapRange) (p : Program)
    (defs pkgs : list (option Package)) (i : nat) (k name : string)
    (definition : error + Package) :
  eval (Packages (range:=range1)) p = Ok defs ->
  eval (PackageSnapshots (range:=range2)) p = Ok pkgs ->
  tableKeys (tableOf p) !! i = Some k ->
  tableOf p !! k = Some (Full name definition) ->
  exists def,
    definition = inr def /\
    defs !! i = Some (Some def) /\
    pkgs !! i = Some (Some def).
Proof.
  intros Hdefs Hpkgs Hi Hk.
  destruct (eval_Packages_cases (range:=range1) p)
    as [(ds & Hds & Hp)|(? & ? & ? & ? & ? & ? & _ & _ & _ & _ & Hp)];
    [|congruence].
  destruct (eval_PackageSnapshots_cases (range:=range2) p)
    as [(ps & Hps & Hq)|(? & ? & ? & ? & ? & ? & _ & _ & _ & _ & Hq)];
    [|congruence].
  rewrite Hp in Hdefs. injection Hdefs as <-.
  rewrite Hq in Hpkgs. injection Hpkgs as <-.
  destruct (Forall2_lookup_l _ _ _ _ _ Hds Hi) as (d & Hd & Hdef).
  destruct (Forall2_lookup_l _ _ _ _ _ Hps Hi) as (pkg & Hpkg & Hmat).
  rewrite Hk in Hdef, Hmat. cbn in Hdef, Hmat.
  destruct definition as [err|def]; [done|].
  injection Hdef as <-. injection Hmat as <-.
  exists def. by rewrite !list_lookup_fmap, Hd, Hpkg.
Qed.

(** The ["aws"] reference of [healthyProgram], which is not partial. *)
Lemma full_reference_agrees_witness :
  exists def,
    (inr awsPackage : error + Package) = inr def /\
    [Some awsPackage; Some kubernetesPackage; Some randomPackage] !! 0
      = Some (Some def) /\
    [Some awsPackage; Some kubernetesSnapshot; Some randomPackage] !! 0
      = Some (Some def).
Proof.
  apply (full_reference_agrees listingRange reverseRange healthyProgram
           _ _ 0 "aws" "aws" (inr awsPackage)); reflexivity.
Defined.

(** C9. The three queries leave the program as they found it, whatever
    their outcome: the table of referenced packages (keys and stored
    references), the list of nodes and the files are those of before the
    call. *)
Theorem queries_leave_program_unchanged (range : MapRange) (p : Program) :
  exec PackageReferences p = p /\
  exec Packages p = p /\
  exec PackageSnapshots p = p.
Proof.
  split; [apply PackageReferences_readonly|].
  split; [apply Packages_readonly|apply PackageSnapshots_readonly].
Qed.


(** * Further properties of [node] *)

Section node_more.
Implicit Types (r : node) (c : call) (cs : list call).

Lemma bool_eq_by_iff (b1 b2 : bool) (P : Prop) :
  (b1 = true <-> P) -> (b2 = true <-> P) -> b1 = b2.
Proof. destruct b1, b2; intuition congruence. Qed.

(** The flags record which marks occurred, nothing else. *)
Lemma flags_by_membership cs1 cs2 r :
  (MarkBinding ∈ cs1 <-> MarkBinding ∈ cs2) ->
  (MarkBound ∈ cs1 <-> MarkBound ∈ cs2) ->
  binding (exec (invokeAll cs1) r) = binding (exec (invokeAll cs2) r) /\
  bound (exec (invokeAll cs1) r) = bound (exec (invokeAll cs2) r).
Proof.
  intros H1 H2. split.
  - apply (bool_eq_by_iff _ _ (binding r = true \/ MarkBinding ∈ cs1));
      rewrite binding_invokeAll; tauto.
  - apply (bool_eq_by_iff _ _ (bound r = true \/ MarkBound ∈ cs1));
      rewrite bound_invokeAll; tauto.
Qed.

Lemma deps_invokeAll_filter_sets cs r :
  deps (exec (invokeAll (filter (fun c => negb (isMark c)) cs)) r)
    = deps (exec (invokeAll cs) r).
Proof.
  rewrite !deps_invokeAll. generalize (deps r).
  induction cs as [|c cs IH]; intros acc; [done|].
  destruct c; cbn; apply IH.
Qed.
End node_more.

(** X1. A single call changes the answer of [isBinding()] in two ways only:
    [markBinding()] on a node that is neither binding nor bound makes it
    true, and [markBound()] on a binding node makes it false. *)
Theorem binding_phase_entered_and_left (r : node) (c : call) :
  eval isBinding r <> eval isBinding (exec (invoke c) r) ->
  (c = MarkBinding /\ eval isBinding r = Ok false /\ eval isBound r = Ok false) \/
  (c = MarkBound /\ eval isBinding r = Ok true).
Proof.
  rewrite !eval_isBinding, !eval_isBound.
  destruct r as [[] [] ds], c; cbn; intros H; try done; auto.
Qed.

(** [markBinding()] on the zero node starts the binding phase. *)
Lemma binding_phase_entered_and_left_witness :
  (MarkBinding = MarkBinding /\
   eval isBinding zeroNode = Ok false /\ eval isBound zeroNode = Ok false) \/
  (MarkBinding = MarkBound /\ eval isBinding zeroNode = Ok true).
Proof.
  apply (binding_phase_entered_and_left zeroNode MarkBinding).
  cbn. discriminate.
Defined.

(** X2. The flags and the dependencies do not touch each other: dropping
    the [setDependencies] calls from a history changes neither [isBinding()]
    nor [isBound()], and dropping the [markBinding]/[markBound] calls does
    not change [getDependencies()]. *)
Theorem marks_and_dependencies_are_independent (cs : list call) :
  eval isBinding (after (filter isMark cs)) = eval isBinding (after cs) /\
  eval isBound (after (filter isMark cs)) = eval isBound (after cs) /\
  eval getDependencies (after (filter (fun c => negb (isMark c)) cs))
    = eval getDependencies (after cs).
Proof.
  rewrite !eval_isBinding, !eval_isBound, !eval_getDependencies. unfold after.
  destruct (flags_by_membership (filter isMark cs) cs zeroNode) as [-> ->].
  - rewrite list_elem_of_filter. cbn. tauto.
  - rewrite list_elem_of_filter. cbn. tauto.
  - by rewrite deps_invokeAll_filter_sets.
Qed.

(** X3. The flags do not record the order of the calls: two histories that
    are rearrangements of each other leave [isBinding()] and [isBound()]
    the same. *)
Theorem flags_ignore_call_order (cs1 cs2 : list call) :
  cs1 ≡ₚ cs2 ->
  eval isBinding (after cs1) = eval isBinding (after cs2) /\
  eval isBound (after cs1) = eval isBound (after cs2).
Proof.
  intros Hp. rewrite !eval_isBinding, !eval_isBound. unfold after.
  destruct (flags_by_membership cs1 cs2 zeroNode) as [-> ->];
    [by rewrite Hp..|done].
Qed.

(** Marking bound before marking binding ends as the usual order does. *)
Lemma flags_ignore_call_order_witness :
  eval isBinding (after [MarkBound; MarkBinding])
    = eval isBinding (after [MarkBinding; MarkBound]) /\
  eval isBound (after [MarkBound; MarkBinding])
    = eval isBound (after [MarkBinding; MarkBound]).
Proof.
  apply (flags_ignore_call_order [MarkBound; MarkBinding]
           [MarkBinding; MarkBound]).
  apply perm_swap.
Defined.

(** * Further properties of the package queries *)

Section query_more.
Context {range : MapRange}.
Implicit Types (p : Program) (m : gmap string PackageReference).

Lemma tableKeys_fmap (g : PackageReference -> PackageReference) m :
  tableKeys (g <$> m) = tableKeys m.
Proof.
  apply sort_Strings_Permutation.
  rewrite map_to_list_fmap, <- list_fmap_compose.
  assert (fst ∘ prod_map id g <$> map_to_list m = (map_to_list m).*1) as ->;
    [|done].
  apply list_fmap_ext. by intros ? [].
Qed.

Lemma tableKeys_empty : tableKeys ∅ = [].
Proof. unfold tableKeys. by rewrite map_to_list_empty. Qed.

(** The loop of [Packages] sees a reference through its [Definition()]
    only. *)
Lemma Packages_loop_ext i refs refs' defs p p' :
  Forall2 (fun a b => callDefinition a = callDefinition b) refs refs' ->
  eval (Packages_loop i refs defs) p = eval (Packages_loop i refs' defs) p'.
Proof.
  intros Hall. revert i defs.
  induction Hall as [|a b refs refs' Hab _ IH]; intros i defs; cbn; [done|].
  rewrite <- Hab. destruct (callDefinition a); [apply IH|done..].
Qed.

(** The loop of [PackageSnapshots] sees a reference through its name and
    through its snapshot or definition, whichever applies. *)
Lemma PackageSnapshots_loop_ext keys values p p' :
  (forall k, k ∈ keys ->
     materialize (tableOf p !! k) = materialize (tableOf p' !! k) /\
     callName (tableOf p !! k) = callName (tableOf p' !! k)) ->
  eval (PackageSnapshots_loop keys values) p
    = eval (PackageSnapshots_loop keys values) p'.
Proof.
  revert values. induction keys as [|k keys IH]; intros values Hext;
    [reflexivity|].
  cbn [PackageSnapshots_loop]. rewrite !eval_bind_read.
  fold (tableOf p) (tableOf p').
  destruct (Hext k) as [<- <-]; [by left|].
  destruct (materialize (tableOf p !! k));
    [|by destruct (callName (tableOf p !! k))|done].
  apply IH. intros k' Hk'. apply Hext. by right.
Qed.
End query_more.

(** X4. Whenever one of the three queries returns a list, the list has as
    many entries as the table has names. *)
Theorem queries_return_one_entry_per_name (range : MapRange) (p : Program) :
  (forall refs, eval PackageReferences p = Ok refs ->
     length refs = size (tableOf p)) /\
  (forall defs, eval Packages p = Ok defs -> length defs = size (tableOf p)) /\
  (forall pkgs, eval PackageSnapshots p = Ok pkgs ->
     length pkgs = size (tableOf p)).
Proof.
  split; [|split].
  - intros refs. rewrite eval_PackageReferences. intros [= <-].
    by rewrite length_fmap, length_tableKeys.
  - intros defs Hdefs.
    destruct (eval_Packages_cases p)
      as [(ds & Hds & Hp)|(? & ? & ? & ? & ? & ? & _ & _ & _ & _ & Hp)];
      [|congruence].
    rewrite Hp in Hdefs. injection Hdefs as <-.
    by rewrite length_fmap, <- (Forall2_length _ _ _ Hds), length_tableKeys.
  - intros pkgs Hpkgs.
    destruct (eval_PackageSnapshots_cases p)
      as [(ps & Hps & Hp)|(? & ? & ? & ? & ? & ? & _ & _ & _ & _ & Hp)];
      [|congruence].
    rewrite Hp in Hpkgs. injection Hpkgs as <-.
    by rewrite length_fmap, <- (Forall2_length _ _ _ Hps), length_tableKeys.
Qed.

(** The three lists of [healthyProgram] have its three names. *)
Lemma queries_return_one_entry_per_name_witness :
  length [Some awsPackage; Some kubernetesPackage; Some randomPackage]
    = size (tableOf healthyProgram) /\
  length [Some awsPackage; Some kubernetesSnapshot; Some randomPackage]
    = size (tableOf healthyProgram).
Proof.
  destruct (queries_return_one_entry_per_name reverseRange healthyProgram)
    as (_ & Hdefs & Hpkgs).
  split; [apply Hdefs|apply Hpkgs]; reflexivity.
Defined.

(** X5. On a program that references no package the three queries return
    the empty list: [Packages()] does not panic and [PackageSnapshots()]
    returns no error. *)
Theorem queries_on_empty_table (range : MapRange) (p : Program) :
  tableOf p = ∅ ->
  eval PackageReferences p = Ok [] /\
  eval Packages p = Ok [] /\
  eval PackageSnapshots p = Ok [].
Proof.
  intros Hp.
  rewrite eval_PackageReferences, eval_Packages, eval_PackageSnapshots.
  by rewrite Hp, tableKeys_empty.
Qed.

Lemma queries_on_empty_table_witness :
  eval (PackageReferences (range:=listingRange)) (mkProgram [] [] (mkBinder ∅))
    = Ok [] /\
  eval (Packages (range:=listingRange)) (mkProgram [] [] (mkBinder ∅))
    = Ok [] /\
  eval (PackageSnapshots (range:=listingRange)) (mkProgram [] [] (mkBinder ∅))
    = Ok [].
Proof.
  apply (queries_on_empty_table listingRange (mkProgram [] [] (mkBinder ∅))).
  reflexivity.
Defined.

(** X6. [Packages()] returns a list exactly when the definition of every
    stored reference loads; it never returns an error value, so in every
    other case it panics. *)
Theorem Packages_returns_iff_all_load (range : MapRange) (p : Program) :
  ((exists defs, eval Packages p = Ok defs) <->
   (forall k ref, tableOf p !! k = Some ref ->
      exists def, Definition_of ref = inr def)) /\
  (forall e, eval Packages p <> Err e).
Proof.
  destruct (eval_Packages_cases p)
    as [(ds & Hds & Hp)
       |(pre & k & post & ds & ref & err & _ & _ & Hk & Herr & Hp)];
    rewrite Hp.
  - split; [|done]. split; [|by eauto]. intros _ k ref Hk.
    destruct (along_tableKeys callDefinition _ _ _ _ Hds Hk) as [def Hdef].
    exists def. by apply returned_Ok.
  - split; [|done]. split; [by intros [? ?]|]. intros Hall.
    destruct (Hall k ref Hk) as [def Hdef]. congruence.
Qed.

(** X7. [PackageSnapshots()] returns a list exactly when every partial
    reference yields its snapshot and every other reference its definition;
    it never panics, so in every other case it returns an error. *)
Theorem PackageSnapshots_returns_iff_all_materialize (range : MapRange)
    (p : Program) :
  ((exists pkgs, eval PackageSnapshots p = Ok pkgs) <->
   (forall k ref, tableOf p !! k = Some ref ->
      exists pkg, materialize (Some ref) = Ok pkg)) /\
  (forall e, eval PackageSnapshots p <> Panic e).
Proof.
  destruct (eval_PackageSnapshots_cases p)
    as [(ps & Hps & Hp)
       |(pre & k & post & ps & ref & err & _ & _ & Hk & Herr & Hp)];
    rewrite Hp.
  - split; [|done]. split; [|by eauto]. intros _ k ref Hk.
    apply (along_tableKeys materialize _ _ _ _ Hps Hk).
  - split; [|done]. split; [by intros [? ?]|]. intros Hall.
    destruct (Hall k ref Hk) as [pkg Hpkg]. congruence.
Qed.

(** X8. [PackageSnapshots()] never asks a partial reference for its full
    definition, and [Packages()] never asks one for its snapshot: changing
    what those calls would yield does not change how the query ends. *)
Theorem queries_ask_only_what_they_need (range : MapRange) (p : Program)
    (f : PartialPackage -> error + Package) :
  eval PackageSnapshots (mapTable (withDefinition f) p)
    = eval PackageSnapshots p /\
  eval Packages (mapTable (withSnapshot f) p) = eval Packages p.
Proof.
  split.
  - rewrite !eval_PackageSnapshots.
    change (tableOf (mapTable (withDefinition f) p))
      with (withDefinition f <$> tableOf p).
    rewrite tableKeys_fmap. apply PackageSnapshots_loop_ext.
    intros k _.
    change (tableOf (mapTable (withDefinition f) p))
      with (withDefinition f <$> tableOf p).
    rewrite lookup_fmap. by destruct (tableOf p !! k) as [[]|].
  - rewrite !eval_Packages. cbn zeta.
    change (tableOf (mapTable (withSnapshot f) p))
      with (withSnapshot f <$> tableOf p).
    rewrite tableKeys_fmap, !length_fmap. apply Packages_loop_ext.
    apply Forall2_fmap, Forall_Forall2_diag, Forall_forall. intros k _.
    rewrite lookup_fmap. by destruct (tableOf p !! k) as [[]|].
Qed.

(** X9. The lists of [PackageReferences()] and [Packages()] are aligned:
    entry [i] of the second is the definition of entry [i] of the first.
    Likewise entry [i] of [PackageSnapshots()] is the snapshot of entry [i]
    of [PackageReferences()] when that is partial, and its definition
    otherwise. *)
Theorem results_are_aligned (range : MapRange) (p : Program)
    (refs : list (option PackageReference)) :
  eval PackageReferences p = Ok refs ->
  (forall defs, eval Packages p = Ok defs ->
     Forall2 (fun ref def => exists d, callDefinition ref = Ok d /\ def = Some d)
             refs defs) /\
  (forall pkgs, eval PackageSnapshots p = Ok pkgs ->
     Forall2 (fun ref pkg => exists d, materialize ref = Ok d /\ pkg = Some d)
             refs pkgs).
Proof.
  rewrite eval_PackageReferences. intros [= <-]. split.
  - intros defs Hdefs.
    destruct (eval_Packages_cases p)
      as [(ds & Hds & Hp)|(? & ? & ? & ? & ? & ? & _ & _ & _ & _ & Hp)];
      [|congruence].
    rewrite Hp in Hdefs. injection Hdefs as <-.
    apply Forall2_fmap. eapply Forall2_impl; [exact Hds|].
    intros k d Hd. by exists d.
  - intros pkgs Hpkgs.
    destruct (eval_PackageSnapshots_cases p)
      as [(ps & Hps & Hp)|(? & ? & ? & ? & ? & ? & _ & _ & _ & _ & Hp)];
      [|congruence].
    rewrite Hp in Hpkgs. injection Hpkgs as <-.
    apply Forall2_fmap. eapply Forall2_impl; [exact Hps|].
    intros k d Hd. by exists d.
Qed.

(** The lists of [healthyProgram] under two orders of [range]. *)
Lemma results_are_aligned_witness :
  Forall2 (fun ref def => exists d, callDefinition ref = Ok d /\ def = Some d)
    [Some (Full "aws" (inr awsPackage));
     Some (Partial (mkPartial "kubernetes" (inr kubernetesPackage)
                      (inr kubernetesSnapshot)));
     Some (Full "random" (inr randomPackage))]
    [Some awsPackage; Some kubernetesPackage; Some randomPackage].
Proof.
  apply (results_are_aligned listingRange healthyProgram); reflexivity.
Defined.

(** X10. On a program none of whose references is partial,
    [PackageSnapshots()] returns a list exactly when [Packages()] does, and
    then the same list. *)
Theorem snapshots_of_full_references (range1 range2 : MapRange) (p : Program)
    (l : list (option Package)) :
  (forall k ref, tableOf p !! k = Some ref -> isFull ref) ->
  eval (PackageSnapshots (range:=range1)) p = Ok l <->
  eval (Packages (range:=range2)) p = Ok l.
Proof.
  intros Hfull.
  assert (forall k, materialize (tableOf p !! k)
                    = callDefinition (tableOf p !! k)) as Hsame.
  { intros k. destruct (tableOf p !! k) as [[name d|partial]|] eqn:Hk; try done.
    by destruct (Hfull _ _ Hk). }
  destruct (eval_PackageSnapshots_cases (range:=range1) p)
    as [(ps & Hps & ->)
       |(pre & k & post & ps & ref & err & _ & _ & Hk & Herr & ->)];
  destruct (eval_Packages_cases (range:=range2) p)
    as [(ds & Hds & ->)
       |(pre' & k' & post' & ds & ref' & err' & _ & _ & Hk' & Herr' & ->)].
  - assert (ps = ds) as ->; [|done].
    clear -Hps Hds Hsame. revert ds Hds.
    induction Hps as [|k b ks bs Hb _ IH]; intros ds Hds.
    + by apply Forall2_nil_inv_l in Hds.
    + apply Forall2_cons_inv_l in Hds as (d & ds' & Hd & Hds' & ->).
      rewrite Hsame in Hb. f_equal; [congruence|by apply IH].
  - destruct (along_tableKeys materialize _ _ _ _ Hps Hk') as [b Hb].
    specialize (Hsame k'). rewrite Hk' in Hsame. rewrite Hsame in Hb.
    cbn in Hb. by rewrite Herr' in Hb.
  - destruct (along_tableKeys callDefinition _ _ _ _ Hds Hk) as [b Hb].
    specialize (Hsame k). rewrite Hk in Hsame. congruence.
  - done.
Qed.

(** [Packages()] and [PackageSnapshots()] on a program with full references
    only. *)
Lemma snapshots_of_full_references_witness :
  eval (PackageSnapshots (range:=listingRange))
       (mkProgram [] [] (mkBinder {[ "aws" := Full "aws" (inr awsPackage) ]}))
    = Ok [Some awsPackage] <->
  eval (Packages (range:=reverseRange))
       (mkProgram [] [] (mkBinder {[ "aws" := Full "aws" (inr awsPackage) ]}))
    = Ok [Some awsPackage].
Proof.
  apply (snapshots_of_full_references listingRange reverseRange
           (mkProgram [] [] (mkBinder {[ "aws" := Full "aws" (inr awsPackage) ]}))).
  intros k ref. unfold tableOf; cbn.
  intros [_ <-]%lookup_singleton_Some. exact I.
Defined.

(** * Properties of the environment helpers *)

Section plant_facts.
Import plant.
Implicit Types (s piece : string) (sep : Ascii.ascii) (items : list string).

Lemma append_cons c s1 s2 : String c s1 +:+ s2 = String c (s1 +:+ s2).
Proof. reflexivity. Qed.

Lemma Split_nonempty s sep : Split s sep <> [].
Proof.
  destruct s as [|c s]; cbn; [done|].
  case_decide; [done|]. by destruct (Split s sep).
Qed.

Lemma Join_cons_cons c piece items (sep : string) :
  Join (String c piece :: items) sep = String c (Join (piece :: items) sep).
Proof. by destruct items. Qed.

Lemma Join_cons_sep e e' items (sep : string) :
  Join (e :: e' :: items) sep = e +:+ sep +:+ Join (e' :: items) sep.
Proof. reflexivity. Qed.

Lemma Join_Split s sep : Join (Split s sep) (String sep EmptyString) = s.
Proof.
  induction s as [|c s IH]; cbn [Split]; [done|].
  pose proof (Split_nonempty s sep) as Hne.
  destruct (Split s sep) as [|piece pieces] eqn:Hs; [done|].
  case_decide as Hc.
  - subst c. by rewrite Join_cons_sep, IH.
  - by rewrite Join_cons_cons, IH.
Qed.

Lemma length_Split s sep : length (Split s sep) = S (Count s sep).
Proof.
  induction s as [|c s IH]; cbn [Split Count]; [done|].
  pose proof (Split_nonempty s sep) as Hne.
  destruct (Split s sep) as [|piece pieces] eqn:Hs; [done|].
  case_decide; cbn in *; lia.
Qed.

Lemma Split_pieces s sep : Forall (fun piece => Count piece sep = 0) (Split s sep).
Proof.
  induction s as [|c s IH]; cbn [Split]; [by repeat constructor|].
  pose proof (Split_nonempty s sep) as Hne.
  destruct (Split s sep) as [|piece pieces] eqn:Hs; [done|].
  apply Forall_cons in IH as [Hpiece Hpieces].
  case_decide as Hc; repeat constructor; try done.
  cbn. by rewrite decide_False.
Qed.

Lemma Split_piece s sep : Count s sep = 0 -> Split s sep = [s].
Proof.
  induction s as [|c s IH]; cbn [Split Count]; [done|].
  case_decide; [done|]. intros Hs. by rewrite IH.
Qed.

Lemma Split_append piece s sep :
  Count piece sep = 0 ->
  Split (piece +:+ String sep s) sep = piece :: Split s sep.
Proof.
  induction piece as [|c piece IH]; cbn [Count].
  - intros _. change (EmptyString +:+ String sep s) with (String sep s).
    cbn [Split]. by rewrite decide_True.
  - case_decide as Hc; [done|]. intros Hp.
    rewrite append_cons. cbn [Split]. by rewrite decide_False, IH.
Qed.

Lemma Split_Join items sep :
  items <> [] ->
  Forall (fun piece => Count piece sep = 0) items ->
  Split (Join items (String sep EmptyString)) sep = items.
Proof.
  induction items as [|e items IH]; [done|]. intros _ Hall.
  apply Forall_cons in Hall as [He Hitems].
  destruct items as [|e' items]; [by apply Split_piece|].
  rewrite Join_cons_sep, append_cons.
  change (EmptyString +:+ ?t) with t.
  rewrite Split_append by done. by rewrite IH.
Qed.

Lemma parseEnvStringArray_Split v :
  parseEnvStringArray v = StringArray (Split v semicolon).
Proof.
  unfold parseEnvStringArray. f_equal. apply (appendKeys_app []).
Qed.
End plant_facts.

(** X11. [getEnvOrDefault] returns the default when none of the variables
    holds a non-empty value, whatever the parser. *)
Theorem getEnvOrDefault_default (env : gmap string string) (def : plant.value)
    (parser : option plant.envParser) (vars : list string) :
  (forall v, v ∈ vars -> plant.Getenv env v = EmptyString) ->
  plant.getEnvOrDefault env def parser vars = def.
Proof.
  induction vars as [|v vars IH]; intros Hall; cbn; [done|].
  rewrite decide_False by (rewrite Hall; [tauto|by left]).
  apply IH. intros u Hu. apply Hall. by right.
Qed.

(** A variable set to the empty string and an unset one both give the
    default. *)
Lemma getEnvOrDefault_default_witness :
  plant.getEnvOrDefault {[ "PLANT_DEBUG" := EmptyString ]} (plant.Bool true)
    (Some plant.parseEnvBool) ["PLANT_DEBUG"; "DEBUG"] = plant.Bool true.
Proof.
  apply getEnvOrDefault_default.
  intros v Hv. vm_compute in Hv.
  apply elem_of_cons in Hv as [->|Hv]; [reflexivity|].
  apply elem_of_cons in Hv as [->|Hv]; [reflexivity|].
  by apply elem_of_nil in Hv.
Defined.

(** X12. [getEnvOrDefault] answers from the first variable, in the order
    given, that holds a non-empty value: it returns that value parsed, or
    the value itself when the parser is nil.  The variables after it and the
    default play no part. *)
Theorem getEnvOrDefault_first_set (env : gmap string string) (def : plant.value)
    (parser : option plant.envParser) (pre post : list string) (v : string) :
  (forall u, u ∈ pre -> plant.Getenv env u = EmptyString) ->
  plant.Getenv env v <> EmptyString ->
  plant.getEnvOrDefault env def parser (pre ++ v :: post)
    = match parser with
      | Some parse => parse (plant.Getenv env v)
      | None => plant.Text (plant.Getenv env v)
      end.
Proof.
  intros Hpre Hv. induction pre as [|u pre IH]; cbn.
  - by rewrite decide_True.
  - rewrite decide_False by (rewrite Hpre; [tauto|by left]).
    apply IH. intros w Hw. apply Hpre. by right.
Qed.

Lemma getEnvOrDefault_first_set_witness :
  plant.getEnvOrDefault {[ "B" := "b-value"; "C" := "c-value" ]}
    (plant.Text "fallback") None (["A"] ++ "B" :: ["C"])
  = plant.Text (plant.Getenv {[ "B" := "b-value"; "C" := "c-value" ]} "B").
Proof.
  apply (getEnvOrDefault_first_set _ _ None ["A"] ["C"] "B").
  - intros u Hu. apply elem_of_cons in Hu as [->|Hu]; [reflexivity|].
    by apply elem_of_nil in Hu.
  - vm_compute. discriminate.
Defined.

(** X13. [getEnvOrDefault] depends on the environment through the values of
    the listed variables only, and takes an empty value for an unset
    variable. *)
Theorem getEnvOrDefault_frame (env1 env2 : gmap string string)
    (def : plant.value) (parser : option plant.envParser) (vars : list string) :
  (forall v, v ∈ vars -> plant.Getenv env1 v = plant.Getenv env2 v) ->
  plant.getEnvOrDefault env1 def parser vars
    = plant.getEnvOrDefault env2 def parser vars.
Proof.
  induction vars as [|v vars IH]; intros Hsame; cbn; [done|].
  rewrite <- (Hsame v) by (by left).
  case_decide; [done|]. apply IH. intros u Hu. apply Hsame. by right.
Qed.

(** Setting a variable to the empty string is like not setting it. *)
Lemma getEnvOrDefault_frame_witness :
  plant.getEnvOrDefault {[ "A" := EmptyString ]} (plant.Text "fallback") None
    ["A"]
  = plant.getEnvOrDefault ∅ (plant.Text "fallback") None ["A"].
Proof.
  apply getEnvOrDefault_frame.
  intros v Hv. apply elem_of_cons in Hv as [->|Hv]; [reflexivity|].
  by apply elem_of_nil in Hv.
Defined.

(** X14. With [parseEnvBool] as the parser, a first non-empty value that is
    not one of the twelve literals of [strconv.ParseBool] makes
    [getEnvOrDefault] return nil: neither the default nor a later variable
    is used instead. *)
Theorem getEnvOrDefault_unparsable_bool (env : gmap string string)
    (def : plant.value) (pre post : list string) (v : string) :
  (forall u, u ∈ pre -> plant.Getenv env u = EmptyString) ->
  plant.Getenv env v <> EmptyString ->
  plant.Getenv env v ∉ ["1"; "t"; "T"; "TRUE"; "true"; "True";
                        "0"; "f"; "F"; "FALSE"; "false"; "False"] ->
  plant.getEnvOrDefault env def (Some plant.parseEnvBool) (pre ++ v :: post)
    = plant.Nil.
Proof.
  intros Hpre Hv Hlit. induction pre as [|u pre IH]; cbn.
  - rewrite decide_True by done.
    unfold plant.parseEnvBool, plant.ParseBool.
    rewrite !bool_decide_eq_false_2; [done|..];
      intros Hin; apply Hlit; rewrite !elem_of_cons, elem_of_nil in *; tauto.
  - rewrite decide_False by (rewrite Hpre; [tauto|by left]).
    apply IH. intros w Hw. apply Hpre. by right.
Qed.

Lemma getEnvOrDefault_unparsable_bool_witness :
  plant.getEnvOrDefault {[ "B" := "yes"; "C" := "true" ]} (plant.Bool false)
    (Some plant.parseEnvBool) (["A"] ++ "B" :: ["C"]) = plant.Nil.
Proof.
  apply (getEnvOrDefault_unparsable_bool _ _ ["A"] ["C"] "B").
  - intros u Hu. apply elem_of_cons in Hu as [->|Hu]; [reflexivity|].
    by apply elem_of_nil in Hu.
  - vm_compute. discriminate.
  - vm_compute. intros H. repeat (apply elem_of_cons in H as [H|H]; [discriminate|]).
    by apply elem_of_nil in H.
Defined.

(** X15. Joining the strings of [parseEnvStringArray(v)] with [;] gives [v]
    back. *)
Theorem parseEnvStringArray_Join (v : string) :
  exists items,
    plant.parseEnvStringArray v = plant.StringArray items /\
    plant.Join items ";" = v.
Proof.
  exists (plant.Split v plant.semicolon).
  split; [apply parseEnvStringArray_Split|apply Join_Split].
Qed.

(** X16. [parseEnvStringArray(v)] holds one string more than [v] has
    semicolons, so it is never empty, not even for the empty [v]; and none
    of its strings contains a semicolon. *)
Theorem parseEnvStringArray_pieces (v : string) :
  exists items,
    plant.parseEnvStringArray v = plant.StringArray items /\
    length items = S (plant.Count v plant.semicolon) /\
    Forall (fun item => plant.Count item plant.semicolon = 0) items.
Proof.
  exists (plant.Split v plant.semicolon).
  split; [apply parseEnvStringArray_Split|].
  split; [apply length_Split|apply Split_pieces].
Qed.

(** X17. Conversely, a non-empty list of strings free of semicolons is what
    [parseEnvStringArray] reads from the list joined with [;]. *)
Theorem parseEnvStringArray_of_Join (items : list string) :
  items <> [] ->
  Forall (fun item => plant.Count item plant.semicolon = 0) items ->
  plant.parseEnvStringArray (plant.Join items ";") = plant.StringArray items.
Proof.
  intros Hne Hall. rewrite parseEnvStringArray_Split. f_equal.
  by apply Split_Join.
Qed.

Lemma parseEnvStringArray_of_Join_witness :
  plant.parseEnvStringArray (plant.Join ["eu-west-1"; ""; "us-east-1"] ";")
    = plant.StringArray ["eu-west-1"; ""; "us-east-1"].
Proof.
  apply parseEnvStringArray_of_Join; [discriminate|].
  repeat constructor.
Defined.

(** * Properties of [runNewPolicyPack] *)

Section policy_new_facts.
Import policy_new.

Lemma precedes_here a b t : b ∈ t -> precedes a b (a :: t).
Proof. intros Hb. by exists [], t. Qed.

Lemma precedes_later a b x t : precedes a b t -> precedes a b (x :: t).
Proof. intros (t1 & t2 & -> & Hb). by exists (x :: t1), t2. Qed.
End policy_new_facts.

(** One step of the case analysis of a run: the answer of the next
    collaborator asked, or the next flag tested. *)
Ltac split_path :=
  match goal with
  | |- context [match ?x with _ => _ end] =>
      lazymatch x with
      | context [match _ with _ => _ end] => fail
      | _ => destruct x eqn:?
      end
  end.

(** All the paths of a run with the arguments [args]. *)
Ltac run_paths args :=
  unfold policy_new.trace, policy_new.result, eval, exec;
  destruct args as [? [] [] [] ? ? ?];
  cbv [policy_new.runNewPolicyPack policy_new.deferred policy_new.check
       policy_new.ask bind fail ret exec id
       policy_new.dir policy_new.force policy_new.generateOnly
       policy_new.interactive policy_new.offline
       policy_new.templateNameOrURL policy_new.yes negb];
  cbn [app fst snd];
  repeat (split_path; cbn [app fst snd]).

(** Membership in, and absence from, the events of one path. *)
Ltac inv_elem H :=
  repeat (apply elem_of_cons in H as [H|H]; [try discriminate H|]);
  try (apply elem_of_nil in H; destruct H).

Ltac solve_elem :=
  solve [repeat first [apply list_elem_of_here | apply list_elem_of_further]].

Ltac solve_precedes :=
  solve [repeat first [apply precedes_here; solve_elem
                      | apply precedes_later]].

(** All the paths of a run with the arguments [args], each with the outcome
    and the events it ends with. *)
Ltac run_cases w args :=
  unfold policy_new.trace, policy_new.result, eval, exec;
  let r := fresh "r" in
  let t := fresh "t" in
  let Hrun := fresh "Hrun" in
  destruct (policy_new.runNewPolicyPack w args []) as [r t] eqn:Hrun;
  cbn [fst snd]; revert r t Hrun;
  destruct args as [? [] [] [] ? ? ?];
  cbv [policy_new.runNewPolicyPack policy_new.deferred policy_new.check
       policy_new.ask bind fail ret exec id
       policy_new.dir policy_new.force policy_new.generateOnly
       policy_new.interactive policy_new.offline
       policy_new.templateNameOrURL policy_new.yes negb];
  cbn [app fst snd];
  repeat (split_path; cbn [app fst snd]);
  intros run_r run_t Hrun; injection Hrun as Hrun_r Hrun_t; subst run_r run_t.

(** The event at position [i] of one path. *)
Ltac inv_lookup H i :=
  cbn in H;
  repeat (first [discriminate H
                | destruct i as [|i]; cbn in H; [try discriminate H|]]).

(** X18. The retrieved repository is deleted exactly when
    [RetrieveTemplates] succeeded.  If the call the run made to it, after
    the events that went before, returned no error, the run ends, whether
    it succeeds or fails, with one [repo.Delete()] as its last event; if
    that call returned an error, the run returns this error, nothing
    follows the call and nothing is deleted.  And a repository is deleted
    only after a [RetrieveTemplates] call, for the template and the offline
    flag of the arguments, that returned no error. *)
Theorem repository_deleted_once_at_the_end (w : policy_new.world)
    (args : policy_new.newPolicyArgs) :
  (forall i name off,
     policy_new.trace w args !! i
       = Some (policy_new.RetrieveTemplates name off) ->
     (policy_new.retrieveTemplates w (take i (policy_new.trace w args))
        name off = None ->
      exists t',
        policy_new.trace w args = t' ++ [policy_new.RepoDelete] /\
        (policy_new.RepoDelete ∉ t') /\
        i < length t') /\
     (forall err,
        policy_new.retrieveTemplates w (take i (policy_new.trace w args))
          name off = Some err ->
        policy_new.result w args = Err err /\
        length (policy_new.trace w args) = S i /\
        (policy_new.RepoDelete ∉ policy_new.trace w args))) /\
  (policy_new.RepoDelete ∈ policy_new.trace w args ->
   exists i,
     policy_new.trace w args !! i
       = Some (policy_new.RetrieveTemplates (policy_new.templateNameOrURL args)
                 (policy_new.offline args)) /\
     policy_new.retrieveTemplates w (take i (policy_new.trace w args))
       (policy_new.templateNameOrURL args) (policy_new.offline args) = None).
Proof.
  run_cases w args.
  all: split.
  all: try (intros H; first [by inv_elem H|clear H]).
  all: try match goal with
           | E : policy_new.retrieveTemplates _ ?h _ _ = None
             |- exists i, _ !! i = _ /\ _ =>
               exists (length h); split; [reflexivity|exact E]
           end.
  all: intros i name off H; inv_lookup H i; injection H as <- <-; cbn [take].
  all: split; [intros Hr|intros err Hr]; try congruence.
  all: try match goal with
           | |- exists t', ?t = _ /\ _ =>
               exists (removelast t); cbn [removelast];
               split; [reflexivity|split; [intros H; by inv_elem H|cbn; lia]]
           end.
  all: split; [congruence|split; [reflexivity|intros H; by inv_elem H]].
Qed.

(** In the calm world the retrieval, sixth call of the run, succeeds, and
    the run ends by deleting the repository. *)
Lemma repository_deleted_once_at_the_end_witness :
  exists t',
    policy_new.trace (policy_new.calmWorld ["aws-typescript"])
      policy_new.sampleArgs = t' ++ [policy_new.RepoDelete] /\
    (policy_new.RepoDelete ∉ t') /\
    5 < length t'.
Proof.
  destruct (repository_deleted_once_at_the_end
              (policy_new.calmWorld ["aws-typescript"]) policy_new.sampleArgs)
    as [H _].
  destruct (H 5 "aws-typescript" false) as [Hdone _]; [reflexivity|].
  apply Hdone. reflexivity.
Defined.

(** X19. Without [--force], the files of a template are copied into a
    directory only after that directory went through the emptiness check
    and that template through the dry run into it. *)
Theorem files_copied_only_after_checks (w : policy_new.world)
    (args : policy_new.newPolicyArgs) (template cwd : string) (f : bool) :
  policy_new.force args = false ->
  policy_new.CopyPolicyPackTemplateFiles template cwd f
    ∈ policy_new.trace w args ->
  f = false /\
  policy_new.precedes (policy_new.ErrorIfNotEmptyDirectory cwd)
    (policy_new.CopyPolicyPackTemplateFiles template cwd f)
    (policy_new.trace w args) /\
  policy_new.precedes (policy_new.CopyPolicyTemplateFilesDryRun template cwd)
    (policy_new.CopyPolicyPackTemplateFiles template cwd f)
    (policy_new.trace w args).
Proof.
  run_paths args.
  all: intros Hf H; try discriminate Hf; inv_elem H.
  all: injection H as -> -> ->.
  all: split; [reflexivity|split; solve_precedes].
Qed.

Lemma files_copied_only_after_checks_witness :
  false = false /\
  policy_new.precedes (policy_new.ErrorIfNotEmptyDirectory "packs/aws")
    (policy_new.CopyPolicyPackTemplateFiles "aws-typescript" "packs/aws" false)
    (policy_new.trace (policy_new.calmWorld ["aws-typescript"])
       policy_new.sampleArgs) /\
  policy_new.precedes
    (policy_new.CopyPolicyTemplateFilesDryRun "aws-typescript" "packs/aws")
    (policy_new.CopyPolicyPackTemplateFiles "aws-typescript" "packs/aws" false)
    (policy_new.trace (policy_new.calmWorld ["aws-typescript"])
       policy_new.sampleArgs).
Proof.
  apply files_copied_only_after_checks; [reflexivity|].
  vm_compute. solve_elem.
Defined.

(** X20. With [--force], neither the emptiness check nor the dry run is
    made, and the files are copied with overwriting allowed. *)
Theorem force_skips_the_checks (w : policy_new.world)
    (args : policy_new.newPolicyArgs) :
  policy_new.force args = true ->
  (forall cwd,
     policy_new.ErrorIfNotEmptyDirectory cwd ∉ policy_new.trace w args) /\
  (forall template cwd,
     policy_new.CopyPolicyTemplateFilesDryRun template cwd
       ∉ policy_new.trace w args) /\
  (forall template cwd f,
     policy_new.CopyPolicyPackTemplateFiles template cwd f
       ∈ policy_new.trace w args -> f = true).
Proof.
  run_paths args.
  all: intros Hf; try discriminate Hf.
  all: split; [intros ? H; by inv_elem H|].
  all: split; [intros ? ? H; by inv_elem H|].
  all: intros ? ? ? H; inv_elem H; by injection H as _ _ ->.
Qed.

Lemma force_skips_the_checks_witness :
  (forall cwd,
     policy_new.ErrorIfNotEmptyDirectory cwd
       ∉ policy_new.trace (policy_new.occupiedWorld ["a"; "b"])
           (policy_new.mkArgs "" true true false false "policies" false)) /\
  (forall template cwd,
     policy_new.CopyPolicyTemplateFilesDryRun template cwd
       ∉ policy_new.trace (policy_new.occupiedWorld ["a"; "b"])
           (policy_new.mkArgs "" true true false false "policies" false)) /\
  (forall template cwd f,
     policy_new.CopyPolicyPackTemplateFiles template cwd f
       ∈ policy_new.trace (policy_new.occupiedWorld ["a"; "b"])
           (policy_new.mkArgs "" true true false false "policies" false) ->
     f = true).
Proof. apply force_skips_the_checks. reflexivity. Defined.

(** X21. A run that returns nil copied the files of a template, printed
    "Created policy pack!" after that, installed the dependencies after
    that unless [--generate-only] was given, and ended by deleting the
    repository. *)
Theorem success_means_files_copied (w : policy_new.world)
    (args : policy_new.newPolicyArgs) :
  policy_new.result w args = Ok tt ->
  (exists template cwd,
     policy_new.precedes
       (policy_new.CopyPolicyPackTemplateFiles template cwd
          (policy_new.force args))
       (policy_new.Println "Created policy pack!")
       (policy_new.trace w args)) /\
  (policy_new.generateOnly args = false ->
   policy_new.precedes (policy_new.Println "Created policy pack!")
     policy_new.NpmInstallDependencies (policy_new.trace w args)) /\
  last (policy_new.trace w args) = Some policy_new.RepoDelete.
Proof.
  run_paths args.
  all: intros Hr; try discriminate Hr; clear Hr.
  all: split; [do 2 eexists; solve_precedes|].
  all: split; [|reflexivity].
  all: intros Hg; try discriminate Hg; solve_precedes.
Qed.

Lemma success_means_files_copied_witness :
  (exists template cwd,
     policy_new.precedes
       (policy_new.CopyPolicyPackTemplateFiles template cwd
          (policy_new.force policy_new.sampleArgs))
       (policy_new.Println "Created policy pack!")
       (policy_new.trace (policy_new.calmWorld ["aws-typescript"])
          policy_new.sampleArgs)) /\
  (policy_new.generateOnly policy_new.sampleArgs = false ->
   policy_new.precedes (policy_new.Println "Created policy pack!")
     policy_new.NpmInstallDependencies
     (policy_new.trace (policy_new.calmWorld ["aws-typescript"])
        policy_new.sampleArgs)) /\
  last (policy_new.trace (policy_new.calmWorld ["aws-typescript"])
          policy_new.sampleArgs) = Some policy_new.RepoDelete.
Proof. apply success_means_files_copied. reflexivity. Defined.

(** X22. The only directory a run creates or enters is the one given with
    [--dir], and only when one is given; it is created before it is
    entered. *)
Theorem only_the_given_directory_is_entered (w : policy_new.world)
    (args : policy_new.newPolicyArgs) (path : string) :
  policy_new.MkdirAll path ∈ policy_new.trace w args \/
  policy_new.Chdir path ∈ policy_new.trace w args ->
  path = policy_new.dir args /\
  path <> EmptyString /\
  (policy_new.Chdir path ∈ policy_new.trace w args ->
   policy_new.precedes (policy_new.MkdirAll path) (policy_new.Chdir path)
     (policy_new.trace w args)).
Proof.
  run_paths args.
  all: intros [H|H]; inv_elem H; injection H as ->.
  all: split; [reflexivity|split; [assumption|]].
  all: intros H; first [solve_precedes | by inv_elem H].
Qed.

Lemma only_the_given_directory_is_entered_witness :
  "packs/aws" = policy_new.dir policy_new.sampleArgs /\
  "packs/aws" <> EmptyString /\
  (policy_new.Chdir "packs/aws"
     ∈ policy_new.trace (policy_new.calmWorld ["aws-typescript"])
         policy_new.sampleArgs ->
   policy_new.precedes (policy_new.MkdirAll "packs/aws")
     (policy_new.Chdir "packs/aws")
     (policy_new.trace (policy_new.calmWorld ["aws-typescript"])
        policy_new.sampleArgs)).
Proof.
  apply only_the_given_directory_is_entered.
  left. vm_compute. solve_elem.
Defined.



(** X24. When the emptiness check the run makes on its working directory,
    after the events that went before, returns an error, the run returns
    this error and makes no further call: no template is retrieved and no
    file is copied. *)
Theorem occupied_directory_stops_the_run (w : policy_new.world)
    (args : policy_new.newPolicyArgs) (i : nat) (cwd : string) (err : error) :
  policy_new.trace w args !! i = Some (policy_new.ErrorIfNotEmptyDirectory cwd) ->
  policy_new.errorIfNotEmptyDirectory w (take i (policy_new.trace w args)) cwd
    = Some err ->
  policy_new.result w args = Err err /\
  length (policy_new.trace w args) = S i /\
  (forall name off,
     policy_new.RetrieveTemplates name off ∉ policy_new.trace w args) /\
  (forall template cwd' f,
     policy_new.CopyPolicyPackTemplateFiles template cwd' f
       ∉ policy_new.trace w args).
Proof.
  revert i. run_cases w args.
  all: intros i H; inv_lookup H i; injection H as <-; cbn [take].
  all: intros Hr; try congruence.
  all: split; [congruence|split; [reflexivity|]].
  all: split; [intros ? ? H; by inv_elem H|intros ? ? ? H; by inv_elem H].
Qed.

(** The check of [packs/aws] is the fifth call of the run, and fails in the
    occupied world. *)
Lemma occupied_directory_stops_the_run_witness :
  policy_new.result (policy_new.occupiedWorld ["aws-typescript"])
    policy_new.sampleArgs = Err (errorString "packs/aws is not empty") /\
  length (policy_new.trace (policy_new.occupiedWorld ["aws-typescript"])
            policy_new.sampleArgs) = 5 /\
  (forall name off,
     policy_new.RetrieveTemplates name off
       ∉ policy_new.trace (policy_new.occupiedWorld ["aws-typescript"])
           policy_new.sampleArgs) /\
  (forall template cwd' f,
     policy_new.CopyPolicyPackTemplateFiles template cwd' f
       ∉ policy_new.trace (policy_new.occupiedWorld ["aws-typescript"])
           policy_new.sampleArgs).
Proof.
  apply (occupied_directory_stops_the_run
           (policy_new.occupiedWorld ["aws-typescript"]) policy_new.sampleArgs
           4 "packs/aws"); reflexivity.
Defined.

(** X25. When the repository the run retrieved answers, after the events
    that went before, that it holds no template, the run returns the error
    "no templates", copies nothing, and its next and last call deletes the
    repository. *)
Theorem no_templates_is_an_error (w : policy_new.world)
    (args : policy_new.newPolicyArgs) (i : nat) :
  policy_new.trace w args !! i = Some policy_new.PolicyTemplates ->
  policy_new.policyTemplates w (take i (policy_new.trace w args)) = inr [] ->
  policy_new.result w args = Err (errorString "no templates") /\
  length (policy_new.trace w args) = S (S i) /\
  last (policy_new.trace w args) = Some policy_new.RepoDelete /\
  (forall template cwd f,
     policy_new.CopyPolicyPackTemplateFiles template cwd f
       ∉ policy_new.trace w args).
Proof.
  revert i. run_cases w args.
  all: intros i H; inv_lookup H i; clear H; cbn [take].
  all: intros Hr; try congruence.
  all: split; [reflexivity|split; [reflexivity|split; [reflexivity|]]].
  all: intros ? ? ? H; by inv_elem H.
Qed.

(** The repository of [calmWorld []] is asked for its templates by the
    seventh call of the run. *)
Lemma no_templates_is_an_error_witness :
  policy_new.result (policy_new.calmWorld []) policy_new.sampleArgs
    = Err (errorString "no templates") /\
  length (policy_new.trace (policy_new.calmWorld []) policy_new.sampleArgs)
    = 8 /\
  last (policy_new.trace (policy_new.calmWorld []) policy_new.sampleArgs)
    = Some policy_new.RepoDelete /\
  (forall template cwd f,
     policy_new.CopyPolicyPackTemplateFiles template cwd f
       ∉ policy_new.trace (policy_new.calmWorld []) policy_new.sampleArgs).
Proof.
  apply (no_templates_is_an_error (policy_new.calmWorld [])
           policy_new.sampleArgs 6); reflexivity.
Defined.

(** X26. The [yes] flag is never consulted: two runs whose arguments differ
    in it only make the same calls and return the same. *)
Theorem yes_flag_is_never_consulted (w : policy_new.world)
    (args : policy_new.newPolicyArgs) (b : bool) :
  policy_new.trace w (policy_new.withYes b args) = policy_new.trace w args /\
  policy_new.result w (policy_new.withYes b args) = policy_new.result w args.
Proof. by destruct args as [? ? ? [] ? ? ?]. Qed.
